(** * Play Store deploy step: the decision logic of [playstore/publish.go]

    A shallow embedding of the functions of [publish.go] that decide what is
    parsed, built and reported, and the properties of its specification that
    hold (or fail) on them.

    Go strings are byte sequences: they are modelled as [string], whose
    characters are the 256 byte values.  A Go [error] carries a message only
    (every error made by this file comes from [fmt.Errorf]), so an error is
    its message.  Logging calls have no influence on control flow and are
    left out. *)

From Stdlib Require Import ZArith NArith Ascii String List Bool Lia.
From Stdlib Require Import Floats.PrimFloat.
From stdpp Require Import gmap strings list fin_maps.

(** * The libraries and the world of the step *)

(** ** Results *)

(** A Go error value: its [Error()] text. *)
Definition error := string.

(** The [(T, error)] result of a call that yields either a value or an error. *)
Inductive result (A : Type) : Type :=
| Ok (a : A)
| Err (e : error).
Arguments Ok {A} a.
Arguments Err {A} e.

Definition is_Err {A} (r : result A) : bool :=
  match r with Ok _ => false | Err _ => true end.

(** ** Bytes *)

Definition byte_val (c : ascii) : N := N_of_ascii c.

Definition is_byte (n : N) (c : ascii) : bool := (byte_val c =? n)%N.

(** [utf8.RuneSelf]: bytes below it are single-byte runes. *)
Definition RuneSelf : N := 128.

Definition is_high (c : ascii) : bool := (RuneSelf <=? byte_val c)%N.

(** ** Package [strings] *)

Module Strings.

(** [strings.HasPrefix(s, prefix)]. *)
Definition HasPrefix (s prefix : string) : bool := String.prefix prefix s.

(** [strings.Contains(s, substr)]. *)
Fixpoint Contains (s substr : string) : bool :=
  String.prefix substr s ||
  match s with
  | EmptyString => false
  | String _ s' => Contains s' substr
  end.

(** [strings.Join(elems, sep)]. *)
Fixpoint Join (elems : list string) (sep : string) : string :=
  match elems with
  | [] => ""
  | [e] => e
  | e :: rest => e +:+ sep +:+ Join rest sep
  end.

(** [strings.Split(s, sep)] for a separator of one byte, the only use in
    [publish.go] ([":"]).  [split_at] yields the text before the first
    separator and the segments after it. *)
Fixpoint split_at (sep : ascii) (s : string) : string * list string :=
  match s with
  | EmptyString => ("", [])
  | String c s' =>
      let '(seg, segs) := split_at sep s' in
      if Ascii.eqb c sep then ("", seg :: segs) else (String c seg, segs)
  end.

Definition Split (s : string) (sep : ascii) : list string :=
  let '(seg, segs) := split_at sep s in seg :: segs.

(** *** [strings.TrimSpace]

    [TrimSpace] removes every leading and trailing white space rune, as
    [unicode.IsSpace] has it.  A rune is white space exactly when its UTF-8
    encoding is one of the byte sequences below; an invalid sequence
    decodes to [RuneError], which is no white space. *)

(** ['\t', '\n', '\v', '\f', '\r', ' ']. *)
Definition asciiSpace (c : ascii) : bool :=
  let n := byte_val c in ((9 <=? n) && (n <=? 13) || (n =? 32))%N.

(** U+0085 (NEL) and U+00A0 (NBSP): [C2 85], [C2 A0]. *)
Definition space2 (a b : ascii) : bool :=
  is_byte 194 a && (is_byte 133 b || is_byte 160 b).

(** U+1680: [E1 9A 80]; U+2000..U+200A: [E2 80 80] .. [E2 80 8A];
    U+2028, U+2029, U+202F: [E2 80 A8], [E2 80 A9], [E2 80 AF];
    U+205F: [E2 81 9F]; U+3000: [E3 80 80]. *)
Definition space3 (a b c : ascii) : bool :=
  let n := byte_val c in
  (is_byte 225 a && is_byte 154 b && is_byte 128 c)
  || (is_byte 226 a && is_byte 128 b
      && (((128 <=? n) && (n <=? 138)) || (n =? 168) || (n =? 169) || (n =? 175))%N)
  || (is_byte 226 a && is_byte 129 b && is_byte 159 c)
  || (is_byte 227 a && is_byte 128 b && is_byte 128 c).

(** Removal of the white space runes at the head of [s], for white space
    given by its one-, two- and three-byte encodings. *)
Section Trim.
Variable sp1 : ascii -> bool.
Variable sp2 : ascii -> ascii -> bool.
Variable sp3 : ascii -> ascii -> ascii -> bool.

(** Does [s] start with a white space rune? *)
Definition lead (s : string) : bool :=
  match s with
  | String a r1 =>
      sp1 a ||
      match r1 with
      | String b r2 =>
          sp2 a b ||
          match r2 with
          | String c _ => sp3 a b c
          | EmptyString => false
          end
      | EmptyString => false
      end
  | EmptyString => false
  end.

Fixpoint trim (s : string) : string :=
  match s with
  | String a r1 =>
      if sp1 a then trim r1 else
      match r1 with
      | String b r2 =>
          if sp2 a b then trim r2 else
          match r2 with
          | String c r3 => if sp3 a b c then trim r3 else s
          | EmptyString => s
          end
      | EmptyString => s
      end
  | EmptyString => s
  end.

(** A run of white space runes. *)
Inductive space_run : string -> Prop :=
| run_nil : space_run ""
| run_1 a s : sp1 a = true -> space_run s -> space_run (String a s)
| run_2 a b s :
    sp2 a b = true -> space_run s -> space_run (String a (String b s))
| run_3 a b c s :
    sp3 a b c = true -> space_run s ->
    space_run (String a (String b (String c s))).
End Trim.

(** [strings.TrimLeftFunc(s, unicode.IsSpace)]. *)
Definition TrimLeft (s : string) : string := trim asciiSpace space2 space3 s.

(** [strings.TrimRightFunc(s, unicode.IsSpace)]: the same scan from the end
    of [s], where the bytes of an encoding are met last byte first. *)
Definition TrimRight (s : string) : string :=
  String.rev
    (trim asciiSpace (fun a b => space2 b a) (fun a b c => space3 c b a)
       (String.rev s)).

Definition TrimSpace (s : string) : string := TrimRight (TrimLeft s).

End Strings.

(** ** Package [unicode/utf8] *)

Module Utf8.

Definition in_range (lo hi : N) (c : ascii) : bool :=
  ((lo <=? byte_val c) && (byte_val c <=? hi))%N.

(** [utf8.DecodeRuneInString], by the number of bytes of the valid
    encoding at the head of [s]; [0] when the head is no valid encoding. *)
Definition rune_size (s : string) : nat :=
  match s with
  | String a r1 =>
      if negb (is_high a) then 1%nat else
      match r1 with
      | String b r2 =>
          if in_range 194 223 a then
            if in_range 128 191 b then 2%nat else 0%nat
          else
            match r2 with
            | String c r3 =>
                let lo2 := if is_byte 224 a then 160%N else 128%N in
                let hi2 := if is_byte 237 a then 159%N else 191%N in
                if in_range 224 239 a then
                  if in_range lo2 hi2 b && in_range 128 191 c
                  then 3%nat else 0%nat
                else
                  match r3 with
                  | String d _ =>
                      let lo2 := if is_byte 240 a then 144%N else 128%N in
                      let hi2 := if is_byte 244 a then 143%N else 191%N in
                      if in_range 240 244 a && in_range lo2 hi2 b
                         && in_range 128 191 c && in_range 128 191 d
                      then 4%nat else 0%nat
                  | EmptyString => 0%nat
                  end
            | EmptyString => 0%nat
            end
      | EmptyString => 0%nat
      end
  | EmptyString => 0%nat
  end.

(** U+FFFD, as [utf8.RuneError] is written. *)
Definition RuneError : string :=
  String (ascii_of_N 239) (String (ascii_of_N 191) (String (ascii_of_N 189) "")).

(** The number of bytes of the rune at the head of a text that is not
    empty: an invalid encoding is one byte wide. *)
Definition rune_width (s : string) : nat := Nat.max 1 (rune_size s).

End Utf8.

(** ** Package [fmt]

    [publish.go] formats with constant format strings whose operands are
    strings and errors ([%s], [%v]); those are written out as concatenations
    where they occur.  One call is different: [uploadAppBundle] hands a
    computed message to [fmt.Errorf] as the format itself, with no operand.
    [Sprintf0] is what [fmt] prints for a format without operands. *)

Module Fmt.

Definition is_digit (c : ascii) : bool :=
  let n := byte_val c in ((48 <=? n) && (n <=? 57))%N.

Definition digit_val (c : ascii) : Z := Z.of_N (byte_val c) - 48.

Definition tooLarge (x : Z) : bool := ((1000000 <? x) || (x <? -1000000))%Z.

(** [parsenum]: the number at the head of [s], whether there is one, and
    what follows it.  A number that grows too large gives up and moves to
    the end of the text. *)
Fixpoint parsenum_from (s : string) (num : Z) (isnum : bool)
  : Z * bool * string :=
  match s with
  | String c r =>
      if is_digit c then
        if tooLarge num then (0%Z, false, "")
        else parsenum_from r (num * 10 + digit_val c)%Z true
      else (num, isnum, s)
  | EmptyString => (num, isnum, s)
  end.

Definition parsenum (s : string) : Z * bool * string :=
  parsenum_from s 0%Z false.

(** The index of the first ["]"] of [s], counted from [i]. *)
Fixpoint find_bracket (s : string) (i : nat) : option nat :=
  match s with
  | String c r => if is_byte 93 c then Some i else find_bracket r (S i)
  | EmptyString => None
  end.

Fixpoint drop (n : nat) (s : string) : string :=
  match n, s with
  | S n', String _ r => drop n' r
  | _, _ => s
  end.

(** [parseArgNumber], on a text that starts with ["["]: how many bytes the
    index takes, and whether it is a number in brackets. *)
Definition parseArgNumber (format : string) : nat * bool :=
  if (String.length format <? 3)%nat then (1%nat, false)
  else
    match find_bracket (drop 1 format) 1 with
    | Some i =>
        let '(_, ok, rest) := parsenum (String.substring 1 (i - 1) format) in
        if ok && String.eqb rest "" then (S i, true) else (S i, false)
    | None => (1%nat, false)
    end.

(** [argNumber] when there is no operand: no index is in range, so an
    index clears [goodArgNum].  Yields the rest of the format, [found] and
    [goodArgNum]. *)
Definition argNumber (format : string) (goodArgNum : bool)
  : string * bool * bool :=
  match format with
  | String c _ =>
      if is_byte 91 c then
        let '(wid, ok) := parseArgNumber format in (drop wid format, ok, false)
      else (format, false, goodArgNum)
  | EmptyString => (format, false, goodArgNum)
  end.

Fixpoint skip_flags (s : string) : string :=
  match s with
  | String c r =>
      if is_byte 35 c || is_byte 48 c || is_byte 43 c || is_byte 45 c
         || is_byte 32 c
      then skip_flags r else s
  | EmptyString => s
  end.

(** The verb at the head of [s], as it is written back, and what follows. *)
Definition read_verb (s : string) : string * string :=
  match Utf8.rune_size s with
  | O => (Utf8.RuneError, drop 1 s)
  | n => (String.substring 0 n s, drop n s)
  end.

(** The width of a directive: what it prints, the rest of the format,
    [afterIndex] and [goodArgNum]. *)
Definition width (s : string) (afterIndex good : bool)
  : string * string * bool * bool :=
  match s with
  | String c r =>
      if is_byte 42 c then ("%!(BADWIDTH)", r, false, good)
      else
        let '(_, widPresent, s') := parsenum s in
        ("", s', afterIndex, if afterIndex && widPresent then false else good)
  | EmptyString => ("", s, afterIndex, good)
  end.

(** The precision of a directive, after what the width printed. *)
Definition precision (out s : string) (afterIndex good : bool)
  : string * string * bool * bool :=
  match s with
  | String c r =>
      if is_byte 46 c then
        let good := if afterIndex then false else good in
        let '(r, afterIndex, good) := argNumber r good in
        match r with
        | String c' r' =>
            if is_byte 42 c' then (out +:+ "%!(BADPREC)", r', false, good)
            else
              let '(_, _, r'') := parsenum r in (out, r'', afterIndex, good)
        | EmptyString => (out, r, afterIndex, good)
        end
      else (out, s, afterIndex, good)
  | EmptyString => (out, s, afterIndex, good)
  end.

(** The verb of a directive: with no operand, it is a percent sign, or the
    note of a bad index or of a missing operand. *)
Definition verb (out s : string) (good : bool) : string * option string :=
  match s with
  | EmptyString => (out +:+ "%!(NOVERB)", None)
  | String c _ =>
      let '(v, rest) := read_verb s in
      if is_byte 37 c then (out +:+ "%", Some rest)
      else if negb good then (out +:+ "%!" +:+ v +:+ "(BADINDEX)", Some rest)
      else (out +:+ "%!" +:+ v +:+ "(MISSING)", Some rest)
  end.

(** One directive, from the byte after ["%"]: what it prints, and the rest
    of the format ([None] when the format ends inside the directive). *)
Definition directive (s : string) : string * option string :=
  let s := skip_flags s in
  let '(s, afterIndex, good) := argNumber s true in
  let '(out, s, afterIndex, good) := width s afterIndex good in
  let '(out, s, afterIndex, good) := precision out s afterIndex good in
  let '(s, _, good) :=
    if afterIndex then (s, afterIndex, good) else argNumber s good in
  verb out s good.

(** [doPrintf] without operands; every step takes at least one byte of
    the format, so its length is fuel enough. *)
Fixpoint doPrintf (fuel : nat) (format : string) : string :=
  match fuel with
  | O => ""
  | S fuel' =>
      match format with
      | EmptyString => ""
      | String c r =>
          if is_byte 37 c then
            let '(out, rest) := directive r in
            match rest with
            | Some r' => out +:+ doPrintf fuel' r'
            | None => out
            end
          else String c (doPrintf fuel' r)
      end
  end.

(** [fmt.Sprintf(format)] and the message of [fmt.Errorf(format)]. *)
Definition Sprintf0 (format : string) : string :=
  doPrintf (String.length format) format.

End Fmt.

(** ** Package [path/filepath], with [/] as the separator *)

Module Filepath.

(** One element of the path met by [Clean]: [out] holds the elements
    kept so far, last one first, of which the first [dotdot] are [..]
    elements that a later [..] cannot remove. *)
Definition clean_step (rooted : bool) (st : list string * nat) (e : string)
  : list string * nat :=
  let '(out, dotdot) := st in
  if String.eqb e "" || String.eqb e "." then st
  else if String.eqb e ".." then
    if (dotdot <? length out)%nat then (tl out, dotdot)
    else if rooted then st
    else (".." :: out, S (length out))
  else (e :: out, dotdot).

(** [filepath.Clean]. *)
Definition Clean (path : string) : string :=
  match path with
  | EmptyString => "."
  | String c _ =>
      let rooted := is_byte 47 c in
      let '(out, _) :=
        fold_left (clean_step rooted) (Strings.Split path "/") ([], 0%nat) in
      let body := Strings.Join (rev out) "/" in
      if rooted then "/" +:+ body
      else if String.eqb body "" then "." else body
  end.

(** [filepath.Join] of two elements. *)
Definition Join (a b : string) : string :=
  if negb (String.eqb a "") then Clean (a +:+ "/" +:+ b)
  else if negb (String.eqb b "") then Clean b
  else "".

End Filepath.

(** ** Package [regexp]

    The expressions of [regexp/syntax] that [publish.go] uses, and their
    matching: the leftmost match, and at that place the one a backtracking
    search finds first. *)

Module Regexp.

Inductive re : Type :=
| Lit (s : string)            (* literal text *)
| Class (p : ascii -> bool)   (* a class of one-byte runes *)
| AnyNotNL                    (* [.] *)
| EndText                     (* [$] *)
| Seq (r1 r2 : re)
| Alt (r1 r2 : re)            (* [r1|r2], [r1] preferred *)
| Star (r : re)               (* [r*], greedy *)
| Plus (r : re)               (* [r+], greedy *)
| Group (n : nat) (r : re).   (* capturing group number [n] *)

(** The text captured by each group that took part in the match. *)
Definition caps : Type := list (nat * string).

Definition cap_get (n : nat) (c : caps) : string :=
  match find (fun '(i, _) => Nat.eqb i n) c with
  | Some (_, t) => t
  | None => ""
  end.

(** The text between a place [s] and a later place [s'] of the input,
    both given by what remains from there. *)
Definition consumed (s s' : string) : string :=
  String.substring 0 (String.length s - String.length s') s.

Section Run.
Context {X : Type}.

(** Greedy repetition of [step]: one more round if it matches and takes
    some input, else go on with [k]. *)
Definition star_loop
    (step : string -> caps -> (string -> caps -> option X) -> option X)
    (k : string -> caps -> option X)
  : nat -> string -> caps -> option X :=
  fix loop (n : nat) (s : string) (c : caps) {struct n} : option X :=
    let again :=
      match n with
      | O => None
      | S n' =>
          step s c (fun s' c' =>
            if (String.length s' <? String.length s)%nat
            then loop n' s' c' else None)
      end in
    match again with
    | Some x => Some x
    | None => k s c
    end.

(** [run r s c k]: match [r] at the head of [s], then go on with [k] on
    what remains; the first success in the order of preference. *)
Fixpoint run (r : re) (s : string) (c : caps)
    (k : string -> caps -> option X) {struct r} : option X :=
  match r with
  | Lit l =>
      if String.prefix l s then k (Fmt.drop (String.length l) s) c else None
  | Class p =>
      match s with
      | String a s' => if p a then k s' c else None
      | EmptyString => None
      end
  | AnyNotNL =>
      match s with
      | String a _ =>
          if is_byte 10 a then None else k (Fmt.drop (Utf8.rune_width s) s) c
      | EmptyString => None
      end
  | EndText =>
      match s with
      | EmptyString => k s c
      | String _ _ => None
      end
  | Seq r1 r2 => run r1 s c (fun s' c' => run r2 s' c' k)
  | Alt r1 r2 =>
      match run r1 s c k with
      | Some x => Some x
      | None => run r2 s c k
      end
  | Star r' => star_loop (run r') k (String.length s) s c
  | Plus r' =>
      run r' s c (fun s' c' => star_loop (run r') k (String.length s') s' c')
  | Group n r' =>
      run r' s c (fun s' c' => k s' ((n, consumed s s') :: c'))
  end.
End Run.

(** The match of [r] at the head of [s]: what remains after it, and the
    captures. *)
Definition match_here (r : re) (s : string) : option (string * caps) :=
  run r s [] (fun s' c => Some (s', c)).

(** The leftmost match, tried rune by rune from the start of [s]. *)
Fixpoint search (fuel : nat) (r : re) (s : string)
  : option (string * string * caps) :=
  match match_here r s with
  | Some (s', c) => Some (s, s', c)
  | None =>
      match fuel, s with
      | S fuel', String _ _ => search fuel' r (Fmt.drop (Utf8.rune_width s) s)
      | _, _ => None
      end
  end.

(** [Regexp.FindStringSubmatch] for an expression of [ngroups] groups:
    the text of the match and of each group, or nil (the empty list). *)
Definition FindStringSubmatch (r : re) (ngroups : nat) (s : string)
  : list string :=
  match search (String.length s) r s with
  | Some (s0, s', c) =>
      consumed s0 s' :: map (fun n => cap_get n c) (seq 1 ngroups)
  | None => []
  end.

End Regexp.

(** ** The world outside the step

    The file system and the publishing service are external to the step.
    Their answers are parameters; the calls made to them are recorded in
    the order in which the step makes them. *)

(** [*os.File]: an open file, known by the path it was opened with. *)
Record File : Type := mkFile { file_path : string }.

(** [androidpublisher.Bundle] and [androidpublisher.Apk], by the one field
    the step reads. *)
Record Bundle : Type := mkBundle { bundle_VersionCode : Z }.
Record Apk : Type := mkApk { apk_VersionCode : Z }.

(** The operating system: [os.Open], [filepath.Glob] and
    [fileutil.ReadStringFromFile]. *)
Record OS : Type := mkOS {
  os_Open : string -> result File;
  os_Glob : string -> result (list string);
  os_ReadStringFromFile : string -> result string
}.

(** [*androidpublisher.Service]: what [Do()] answers for each upload call. *)
Record Service : Type := mkService {
  svc_Expansionfiles :
    string -> string -> Z -> string -> File -> result unit;
  svc_Deobfuscationfiles :
    string -> string -> Z -> string -> File -> result unit;
  svc_Bundles : string -> string -> File -> bool -> result Bundle;
  svc_Apks : string -> string -> File -> result Apk
}.

(** The calls that reach the outside world. *)
Inductive Event : Type :=
| EvOpen (path : string)
| EvExpansionfilesUpload
    (packageName appEditID : string) (versionCode : Z) (expFileType : string)
    (media : File)
| EvDeobfuscationfilesUpload
    (packageName appEditID : string) (versionCode : Z) (fileType : string)
    (media : File)
| EvBundlesUpload (packageName appEditID : string) (media : File) (ack : bool)
| EvApksUpload (packageName appEditID : string) (media : File).

(** A computation: the calls it made, and its result. *)
Definition IO (A : Type) : Type := list Event * result A.

Definition fail {A} (e : error) : IO A := ([], Err e).

Definition bind {A B} (m : IO A) (k : A -> IO B) : IO B :=
  match m with
  | (t, Ok a) => let '(t', r) := k a in (t ++ t', r)
  | (t, Err e) => (t, Err e)
  end.

(** One call to the outside: the event, then the answer; an error answer is
    wrapped by [wrap] before it is returned. *)
Definition call {A} (ev : Event) (answer : result A) (wrap : error -> error)
  : IO A :=
  match answer with
  | Ok a => ([ev], Ok a)
  | Err e => ([ev], Err (wrap e))
  end.

Notation "'do' x <- m ; k" := (bind m (fun x => k))
  (at level 10, x name, m at level 100, k at level 200).

Definition outcome {A} (m : IO A) : result A := snd m.

(** * The step: [playstore/publish.go] *)

Definition releaseStatusCompleted : string := "completed".
Definition releaseStatusInProgress : string := "inProgress".
Definition releaseStatusDraft : string := "draft".
Definition releaseStatusHalted : string := "halted".

(** ** Expansion files *)

(** [validateExpansionFileConfig]: is the entry a main or a patch file? *)
Definition validateExpansionFileConfig (expFileEntry : string) : bool :=
  let cleanExpFileConfigEntry := Strings.TrimSpace expFileEntry in
  Strings.HasPrefix cleanExpFileConfigEntry "main:"
  || Strings.HasPrefix cleanExpFileConfigEntry "patch:".

(** [expFileInfo]: the path and the type of a config entry. *)
Definition expFileInfo (expFileConfigEntry : string) : result (string * string) :=
  let expansionFilePathSplit := Strings.Split expFileConfigEntry ":" in
  if (length expansionFilePathSplit <? 2)%nat then
    Err ("malformed expansion file path: " +:+ expFileConfigEntry)
  else
    let expFileType := Strings.TrimSpace (nth 0 expansionFilePathSplit "") in
    let expFilePth :=
      Strings.TrimSpace (Strings.Join (tl expansionFilePathSplit) "") in
    Ok (expFilePth, expFileType).

(** [uploadExpansionFiles].  The file of a failed [os.Open] is the nil
    [*os.File], which [%v] prints as [<nil>]. *)
Definition uploadExpansionFiles (os : OS) (service : Service)
    (expFileEntry packageName appEditID : string) (versionCode : Z) : IO unit :=
  let cleanExpFileConfigEntry := Strings.TrimSpace expFileEntry in
  if negb (validateExpansionFileConfig cleanExpFileConfigEntry) then
    fail ("invalid expansion file config: " +:+ expFileEntry)
  else
    match expFileInfo cleanExpFileConfigEntry with
    | Err err => fail err
    | Ok (expFilePth, expFileType) =>
        do expansionFile <-
          call (EvOpen expFilePth) (os_Open os expFilePth)
            (fun err => "failed to read expansion file (<nil>), error: " +:+ err);
        call (EvExpansionfilesUpload packageName appEditID versionCode
                expFileType expansionFile)
          (svc_Expansionfiles service packageName appEditID versionCode
             expFileType expansionFile)
          (fun err => "failed to upload expansion file, error: " +:+ err)
    end.


(** ** Bundles and APKs *)

Definition LF : string := String "010" "".

Definition bundleInstallationWarning : string :=
  "Error 403: The installation of the app bundle may be too large " +:+
  "and trigger user warning on some devices, and this needs to be explicitly acknowledged in the request.".

(** The hint that [uploadAppBundle] adds to its message. *)
Definition ackHint : string :=
  LF +:+ "To acknowledge this warning, set the Acknowledge Bundle Installation Warning (ack_bundle_installation_warning) input to true.".

(** The message that [uploadAppBundle] composes for the error of the
    remote call, before it is handed to [fmt.Errorf]. *)
Definition bundleErrorMsg (err : error) : string :=
  let msg := "failed to upload app bundle, error: " +:+ err in
  if Strings.Contains err bundleInstallationWarning then msg +:+ ackHint
  else msg.

(** [uploadAppBundle]: the message is the format of [fmt.Errorf], which has
    no operand. *)
Definition uploadAppBundle (service : Service) (packageName appEditID : string)
    (appFile : File) (ackBundleInstallationWarning : bool) : IO Bundle :=
  call (EvBundlesUpload packageName appEditID appFile
          ackBundleInstallationWarning)
    (svc_Bundles service packageName appEditID appFile
       ackBundleInstallationWarning)
    (fun err => Fmt.Sprintf0 (bundleErrorMsg err)).

(** [uploadAppApk]. *)
Definition uploadAppApk (service : Service) (packageName appEditID : string)
    (appFile : File) : IO Apk :=
  call (EvApksUpload packageName appEditID appFile)
    (svc_Apks service packageName appEditID appFile)
    (fun err => "failed to upload apk, error: " +:+ err).

(** ** Release notes *)

Definition is_alnum (c : ascii) : bool :=
  let n := byte_val c in
  ((48 <=? n) && (n <=? 57) || (97 <=? n) && (n <=? 122)
   || (65 <=? n) && (n <=? 90))%N.

(** [whatsnew-(?P<locale>([0-9a-zA-Z].*(-|$))+)]: group 1 is [locale]. *)
Definition whatsnewPattern : Regexp.re :=
  Regexp.Seq (Regexp.Lit "whatsnew-")
    (Regexp.Group 1
       (Regexp.Plus
          (Regexp.Group 2
             (Regexp.Seq (Regexp.Class is_alnum)
                (Regexp.Seq (Regexp.Star Regexp.AnyNotNL)
                   (Regexp.Group 3
                      (Regexp.Alt (Regexp.Lit "-") Regexp.EndText))))))).

(** The loop of [readLocalisedRecentChanges] over the globbed paths; the
    map and the error it returns. *)
Fixpoint readRecentChanges (os : OS) (recentChangesPaths : list string)
    (recentChangesMap : gmap string string)
  : gmap string string * option error :=
  match recentChangesPaths with
  | [] => (recentChangesMap, None)
  | recentChangesPath :: rest =>
      let matches :=
        Regexp.FindStringSubmatch whatsnewPattern 3 recentChangesPath in
      if (2 <=? length matches)%nat then
        let language := nth 1 matches "" in
        match os_ReadStringFromFile os recentChangesPath with
        | Err err => (∅, Some err)
        | Ok content =>
            readRecentChanges os rest (<[language := content]> recentChangesMap)
        end
      else readRecentChanges os rest recentChangesMap
  end.

(** [readLocalisedRecentChanges]: the recent changes of a directory, by
    language. *)
Definition readLocalisedRecentChanges (os : OS) (recentChangesDir : string)
  : gmap string string * option error :=
  let pattern := Filepath.Join recentChangesDir "whatsnew-*" in
  match os_Glob os pattern with
  | Err err => (∅, Some err)
  | Ok recentChangesPaths => readRecentChanges os recentChangesPaths ∅
  end.

(** ** Releases *)

(** [androidpublisher.LocalizedText]. *)
Record LocalizedText : Type := mkLocalizedText {
  Language : string;
  Text : string
}.

(** [androidpublisher.TrackRelease], by the fields the step sets. *)
Record TrackRelease : Type := mkTrackRelease {
  VersionCodes : list Z;
  Status : string;
  InAppUpdatePriority : Z;
  UserFraction : float;
  Name : string;
  ReleaseNotes : list LocalizedText
}.

(** Modelled from the spec: the [Configs] struct is declared outside
    [publish.go]; these are the configuration fields that the release builder
    consumes ([status], [userFraction], [updatePriority], [releaseName],
    [whatsNewsDir]). *)
Record Configs : Type := mkConfigs {
  cfg_Status : string;
  cfg_UserFraction : float;
  cfg_UpdatePriority : Z;
  cfg_ReleaseName : string;
  cfg_WhatsnewsDir : string
}.

(** [updateListing]: the release with the listing information added.  Go
    leaves the order in which a map is ranged over open; the release notes
    are listed here in the order of [map_to_list]. *)
Definition updateListing (os : OS) (whatsNewsDir : string)
    (release : TrackRelease) : result TrackRelease :=
  if negb (String.eqb whatsNewsDir "") then
    match readLocalisedRecentChanges os whatsNewsDir with
    | (_, Some err) => Err ("failed to read whatsnews, error: " +:+ err)
    | (recentChangesMap, None) =>
        let releaseNotes :=
          map (fun '(language, recentChanges) =>
                 mkLocalizedText language recentChanges)
            (map_to_list recentChangesMap) in
        Ok (mkTrackRelease (VersionCodes release) (Status release)
              (InAppUpdatePriority release) (UserFraction release)
              (Name release) releaseNotes)
    end
  else Ok release.

(** [releaseStatusFromConfig]: the status that the user fraction stands for. *)
Definition releaseStatusFromConfig (userFraction : float) : string :=
  if negb (PrimFloat.eqb userFraction 0%float) then releaseStatusInProgress
  else releaseStatusCompleted.

Definition shouldApplyUserFraction (status : string) : bool :=
  String.eqb status releaseStatusInProgress
  || String.eqb status releaseStatusHalted.

(** [createTrackRelease]: a release of the given version codes, with the
    listing information. *)
Definition createTrackRelease (os : OS) (config : Configs)
    (versionCodes : list Z) : result TrackRelease :=
  let status0 := cfg_Status config in
  let status :=
    if String.eqb status0 "" then
      releaseStatusFromConfig (cfg_UserFraction config)
    else status0 in
  let userFraction :=
    if shouldApplyUserFraction status then cfg_UserFraction config
    else 0%float in
  let name :=
    if negb (String.eqb (cfg_ReleaseName config) "") then cfg_ReleaseName config
    else "" in
  let newRelease :=
    mkTrackRelease versionCodes status (cfg_UpdatePriority config)
      userFraction name [] in
  match updateListing os (cfg_WhatsnewsDir config) newRelease with
  | Err err => Err ("failed to update listing, reason: " +:+ err)
  | Ok release => Ok release
  end.

(** ** The vocabulary of the properties *)

(** Does the byte [c] occur in [s]? *)
Fixpoint has_byte (c : ascii) (s : string) : bool :=
  match s with
  | EmptyString => false
  | String a s' => Ascii.eqb a c || has_byte c s'
  end.

(** A low byte that is no white space: a letter, a digit, a colon. *)
Definition plain (c : ascii) : bool :=
  negb (is_high c) && negb (Strings.asciiSpace c).

(** The type segment of an entry: the text before the first colon of the
    trimmed entry. *)
Definition typeSegment (expFileEntry : string) : string :=
  nth 0 (Strings.Split (Strings.TrimSpace expFileEntry) ":") "".

(** A malformed entry: no colon, or a type segment other than [main] and
    [patch]. *)
Definition malformed (expFileEntry : string) : Prop :=
  has_byte ":" expFileEntry = false
  \/ (typeSegment expFileEntry <> "main" /\ typeSegment expFileEntry <> "patch").

(** The text [p] with its colons removed: what the split at the colons and
    the join by the empty text leave of it. *)
Definition without_colons (p : string) : string :=
  Strings.Join (Strings.Split p ":") "".

(** The configuration [config] with its user fraction set to [f]. *)
Definition withUserFraction (config : Configs) (f : float) : Configs :=
  mkConfigs (cfg_Status config) f (cfg_UpdatePriority config)
    (cfg_ReleaseName config) (cfg_WhatsnewsDir config).

(** Does [s] start with [whatsnew-] and a letter or digit? *)
Definition locale_starts (s : string) : bool :=
  String.prefix "whatsnew-" s
  && match Fmt.drop 9 s with
     | String c _ => is_alnum c
     | EmptyString => false
     end.

(** Does [whatsnew-] with a letter or digit after it occur in [s]? *)
Fixpoint whatsnew_occurs (s : string) : bool :=
  locale_starts s
  || match s with
     | String _ r => whatsnew_occurs r
     | EmptyString => false
     end.

(** A locale tag: it starts with a letter or a digit, and holds no line
    feed (as every BCP 47 language tag does). *)
Definition locale_tag (tag : string) : bool :=
  match tag with
  | String a t => is_alnum a && negb (has_byte "010" t)
  | EmptyString => false
  end.

(** The directory part of a globbed path: empty, or ended by the
    separator. *)
Definition dir_prefix (pre : string) : Prop :=
  pre = "" \/ exists d, pre = d +:+ "/".

(** A path whose locale is found: the guard of the loop of
    [readLocalisedRecentChanges]. *)
Definition matched (recentChangesPath : string) : bool :=
  (2 <=? length (Regexp.FindStringSubmatch whatsnewPattern 3 recentChangesPath))%nat.

(** The path of the file [whatsnew-<tag>] in the directory spelled [pre]. *)
Definition whatsnewPath (pre tag : string) : string :=
  pre +:+ "whatsnew-" +:+ tag.

(** The notes of a list of files, given by tag and content, added to a map
    in the order of the list. *)
Definition addNotes (entries : list (string * string))
    (m : gmap string string) : gmap string string :=
  fold_left (fun m e => <[fst e := snd e]> m) entries m.

(** The language that the loop of [readLocalisedRecentChanges] takes from a
    path: the text of the group [locale], [matches[1]]. *)
Definition language_of (recentChangesPath : string) : string :=
  nth 1 (Regexp.FindStringSubmatch whatsnewPattern 3 recentChangesPath) "".

(** An expression that takes no line feed from the input. *)
Fixpoint lf_free (r : Regexp.re) : bool :=
  match r with
  | Regexp.Lit l => negb (has_byte "010" l)
  | Regexp.Class p => negb (p "010"%char)
  | Regexp.AnyNotNL | Regexp.EndText => true
  | Regexp.Seq r1 r2 | Regexp.Alt r1 r2 => lf_free r1 && lf_free r2
  | Regexp.Star r' | Regexp.Plus r' | Regexp.Group _ r' => lf_free r'
  end.

(** A matcher that only moves forward, over text without a line feed:
    where it goes on, the input left is an end of the input it was given. *)
Definition forward {X}
    (step : string -> Regexp.caps -> (string -> Regexp.caps -> option X) -> option X)
  : Prop :=
  forall s c k x, step s c k = Some x ->
    exists u s' c',
      s = u +:+ s' /\ has_byte "010" u = false /\ k s' c' = Some x.

(** ** Worlds for the examples *)

(** A file system for examples: the globbed paths of one pattern, and the
    content of each file. *)
Definition exampleOS (pattern : string) (paths : list string)
    (files : list (string * string)) : OS :=
  mkOS (fun p => Ok (mkFile p))
    (fun pat => if String.eqb pat pattern then Ok paths else Ok [])
    (fun p =>
       match find (fun '(q, _) => String.eqb q p) files with
       | Some (_, content) => Ok content
       | None => Err ("open " +:+ p +:+ ": no such file or directory")
       end).

(** A file system in which every file opens, and a service that accepts
    every upload. *)
Definition openOS : OS :=
  mkOS (fun p => Ok (mkFile p)) (fun _ => Ok [])
    (fun p => Err ("open " +:+ p +:+ ": no such file or directory")).

Definition acceptingService : Service :=
  mkService (fun _ _ _ _ _ => Ok tt) (fun _ _ _ _ _ => Ok tt)
    (fun _ _ _ _ => Ok (mkBundle 1)) (fun _ _ _ => Ok (mkApk 1)).

(** A service whose bundle upload is rejected with the message [err]. *)
Definition rejectingService (err : error) : Service :=
  mkService (fun _ _ _ _ _ => Ok tt) (fun _ _ _ _ _ => Ok tt)
    (fun _ _ _ _ => Err err) (fun _ _ _ => Ok (mkApk 1)).

(** * Properties *)

(** ** The library models on examples *)

Example TrimSpace_ex1 : Strings.TrimSpace "  main:/a b.obb  " = "main:/a b.obb".
Proof. reflexivity. Qed.
Example Split_ex1 : Strings.Split "main:/a:b/c.obb" ":" = ["main"; "/a"; "b/c.obb"].
Proof. reflexivity. Qed.
Example Split_ex2 : Strings.Split "" ":" = [""].
Proof. reflexivity. Qed.
Example Split_ex3 : Strings.Split "a:" ":" = ["a"; ""].
Proof. reflexivity. Qed.
Example Sprintf0_ex1 : Fmt.Sprintf0 "no verbs here" = "no verbs here".
Proof. reflexivity. Qed.
Example Sprintf0_ex2 : Fmt.Sprintf0 "100%" = "100%!(NOVERB)".
Proof. reflexivity. Qed.
Example Sprintf0_ex3 : Fmt.Sprintf0 "50% off, %d left, 5%% tax" = "50%!o(MISSING)ff, %!d(MISSING) left, 5% tax".
Proof. reflexivity. Qed.
Example Sprintf0_ex4 : Fmt.Sprintf0 "a%[1]sb %*d %.*f %[x]q %12345678d tail" = "a%!s(BADINDEX)b %!(BADWIDTH)%!d(MISSING) %!(BADPREC)%!f(MISSING) %!q(BADINDEX) %!(NOVERB)".
Proof. reflexivity. Qed.
Example Join_ex1 : Filepath.Join "notes" "whatsnew-*" = "notes/whatsnew-*".
Proof. reflexivity. Qed.
Example Join_ex2 : Filepath.Join "/a/./b//../c/" "whatsnew-*" = "/a/c/whatsnew-*".
Proof. reflexivity. Qed.
Example Join_ex3 : Filepath.Join "" "whatsnew-*" = "whatsnew-*".
Proof. reflexivity. Qed.
Example Clean_ex1 : Filepath.Clean "../../a/../../b/.." = "../../..".
Proof. reflexivity. Qed.
Example Clean_ex2 : Filepath.Clean "/../a/.." = "/".
Proof. reflexivity. Qed.
Example Clean_ex3 : Filepath.Clean "a/.." = ".".
Proof. reflexivity. Qed.
Example expFileInfo_ex1 :
  expFileInfo "main:/file/path/1.obb" = Ok ("/file/path/1.obb", "main").
Proof. reflexivity. Qed.
Example expFileInfo_ex2 :
  expFileInfo "main:/a:b/c.obb" = Ok ("/ab/c.obb", "main").
Proof. reflexivity. Qed.
Example FindStringSubmatch_ex1 :
  Regexp.FindStringSubmatch whatsnewPattern 3 "notes/whatsnew-en-US"
  = ["whatsnew-en-US"; "en-US"; "en-US"; ""].
Proof. reflexivity. Qed.
Example FindStringSubmatch_ex2 :
  Regexp.FindStringSubmatch whatsnewPattern 3 "notes/notes.txt" = [].
Proof. reflexivity. Qed.
Example FindStringSubmatch_ex3 :
  Regexp.FindStringSubmatch whatsnewPattern 3
    ("whatsnew-en-US-x" +:+ LF +:+ "rest")
  = ["whatsnew-en-US-"; "en-US-"; "en-US-"; "-"].
Proof. reflexivity. Qed.
Example FindStringSubmatch_ex4 :
  Regexp.FindStringSubmatch whatsnewPattern 3 "whatsnew-x/whatsnew-en-US"
  = ["whatsnew-x/whatsnew-en-US"; "x/whatsnew-en-US"; "x/whatsnew-en-US"; ""].
Proof. reflexivity. Qed.

(** ** Release construction *)

(** The listing information changes the release notes of a release, and
    nothing else. *)
Lemma updateListing_fields os whatsNewsDir release r :
  updateListing os whatsNewsDir release = Ok r ->
  VersionCodes r = VersionCodes release /\ Status r = Status release
  /\ InAppUpdatePriority r = InAppUpdatePriority release
  /\ UserFraction r = UserFraction release /\ Name r = Name release.
Proof.
  unfold updateListing.
  destruct (negb (String.eqb whatsNewsDir "")).
  - destruct (readLocalisedRecentChanges os whatsNewsDir) as [m [err|]];
      intros H; inversion H; subst; simpl; auto.
  - intros H; inversion H; subst; auto.
Qed.

Lemma updateListing_no_dir os release : updateListing os "" release = Ok release.
Proof. reflexivity. Qed.

(** What [createTrackRelease] hands to [updateListing]. *)
Lemma createTrackRelease_Ok os config versionCodes r :
  createTrackRelease os config versionCodes = Ok r ->
  exists release,
    updateListing os (cfg_WhatsnewsDir config) release = Ok r
    /\ Status release
       = (if String.eqb (cfg_Status config) ""
          then releaseStatusFromConfig (cfg_UserFraction config)
          else cfg_Status config)
    /\ UserFraction release
       = (if shouldApplyUserFraction (Status release)
          then cfg_UserFraction config else 0%float).
Proof.
  unfold createTrackRelease.
  match goal with
  | |- context [updateListing os _ ?rel] =>
      destruct (updateListing os (cfg_WhatsnewsDir config) rel) as [r'|e] eqn:E
  end; intros H; inversion H; subst.
  eexists; split; [exact E|]. simpl. auto.
Qed.

Lemma createTrackRelease_no_dir os config versionCodes :
  cfg_WhatsnewsDir config = "" ->
  is_Err (createTrackRelease os config versionCodes) = false.
Proof. unfold createTrackRelease. intros ->. reflexivity. Qed.

(** [createTrackRelease] fails exactly when there is a directory of release
    notes and reading it fails. *)
Lemma createTrackRelease_error os config versionCodes :
  is_Err (createTrackRelease os config versionCodes) = true
  <-> cfg_WhatsnewsDir config <> ""
      /\ exists err,
           snd (readLocalisedRecentChanges os (cfg_WhatsnewsDir config))
           = Some err.
Proof.
  unfold createTrackRelease, updateListing.
  destruct (String.eqb_spec (cfg_WhatsnewsDir config) "") as [->|Hne]; cbn [negb].
  - split; [discriminate|]. intros [H _]. congruence.
  - destruct (readLocalisedRecentChanges os (cfg_WhatsnewsDir config))
      as [m [err|]]; simpl.
    + split; [eauto|reflexivity].
    + split; [discriminate|]. intros [_ [err H]]. discriminate H.
Qed.

Lemma shouldApplyUserFraction_true status :
  shouldApplyUserFraction status = true ->
  status = releaseStatusInProgress \/ status = releaseStatusHalted.
Proof.
  unfold shouldApplyUserFraction. intros H.
  apply orb_true_iff in H as [H|H]; apply String.eqb_eq in H; auto.
Qed.

(** C2. A release built by [createTrackRelease] has a user fraction other
    than zero only if its status is [inProgress] or [halted].  With the
    status set to [draft] or [completed], the user fraction of the
    configuration is dropped, and no error comes of it: the result is the
    one of the same configuration with a zero fraction, a release of that
    status whose fraction is zero; an error is returned only when reading
    the directory of release notes fails.  With the status [halted], the
    fraction of the configuration is the fraction of the release. *)
Theorem createTrackRelease_user_fraction os config versionCodes :
  (forall r, createTrackRelease os config versionCodes = Ok r ->
     PrimFloat.eqb (UserFraction r) 0%float = false ->
     Status r = releaseStatusInProgress \/ Status r = releaseStatusHalted)
  /\ (cfg_Status config = releaseStatusDraft
      \/ cfg_Status config = releaseStatusCompleted ->
      createTrackRelease os config versionCodes
      = createTrackRelease os (withUserFraction config 0%float) versionCodes
      /\ (forall r, createTrackRelease os config versionCodes = Ok r ->
            UserFraction r = 0%float /\ Status r = cfg_Status config)
      /\ (is_Err (createTrackRelease os config versionCodes) = true
          <-> cfg_WhatsnewsDir config <> ""
              /\ exists err,
                   snd (readLocalisedRecentChanges os (cfg_WhatsnewsDir config))
                   = Some err))
  /\ (cfg_Status config = releaseStatusHalted ->
      forall r, createTrackRelease os config versionCodes = Ok r ->
        UserFraction r = cfg_UserFraction config
        /\ Status r = releaseStatusHalted).
Proof.
  split; [|split].
  - intros r Hr Hnz.
    apply createTrackRelease_Ok in Hr as (rel & Hup & Hst & Hfr).
    apply updateListing_fields in Hup as (_ & Hs & _ & Hf & _).
    rewrite Hs, Hf in *.
    destruct (shouldApplyUserFraction (Status rel)) eqn:E.
    + now apply shouldApplyUserFraction_true.
    + rewrite Hfr in Hnz. discriminate Hnz.
  - intros Hst. split; [|split].
    + unfold createTrackRelease, withUserFraction; simpl.
      destruct Hst as [-> | ->]; reflexivity.
    + intros r Hr.
      apply createTrackRelease_Ok in Hr as (rel & Hup & Hs & Hfr).
      apply updateListing_fields in Hup as (_ & Hs' & _ & Hf & _).
      rewrite Hs', Hf, Hfr, Hs.
      destruct Hst as [-> | ->]; split; reflexivity.
    + apply createTrackRelease_error.
  - intros Hst r Hr.
    apply createTrackRelease_Ok in Hr as (rel & Hup & Hs & Hfr).
    apply updateListing_fields in Hup as (_ & Hs' & _ & Hf & _).
    rewrite Hs', Hf, Hfr, Hs, Hst. split; reflexivity.
Qed.

Lemma createTrackRelease_user_fraction_witness :
  exists r,
    createTrackRelease openOS (mkConfigs "draft" 0.5%float 3 "v1.2" "") [17%Z; 18%Z]
    = Ok r
    /\ UserFraction r = 0%float /\ Status r = "draft".
Proof.
  eexists. split; [reflexivity|].
  apply (proj1 (proj2 (proj1 (proj2
           (createTrackRelease_user_fraction openOS
              (mkConfigs "draft" 0.5%float 3 "v1.2" "") [17%Z; 18%Z]))
           (or_introl eq_refl)))).
  reflexivity.
Defined.

(** C3. With the status of the configuration left empty, the release built
    by [createTrackRelease] is [inProgress] when the user fraction of the
    configuration is not zero and [completed] when it is zero; a status that
    is not empty is the status of the release as it stands.  A release is
    built unless reading the directory of release notes fails, and always
    when there is no such directory. *)
Theorem createTrackRelease_status os config versionCodes :
  (forall r, createTrackRelease os config versionCodes = Ok r ->
     (cfg_Status config = "" ->
      PrimFloat.eqb (cfg_UserFraction config) 0%float = false ->
      Status r = releaseStatusInProgress)
     /\ (cfg_Status config = "" ->
         PrimFloat.eqb (cfg_UserFraction config) 0%float = true ->
         Status r = releaseStatusCompleted)
     /\ (cfg_Status config <> "" -> Status r = cfg_Status config))
  /\ (is_Err (createTrackRelease os config versionCodes) = true
      <-> cfg_WhatsnewsDir config <> ""
          /\ exists err,
               snd (readLocalisedRecentChanges os (cfg_WhatsnewsDir config))
               = Some err)
  /\ (cfg_WhatsnewsDir config = "" ->
      exists r, createTrackRelease os config versionCodes = Ok r).
Proof.
  split.
  - intros r Hr.
    apply createTrackRelease_Ok in Hr as (rel & Hup & Hs & _).
    apply updateListing_fields in Hup as (_ & Hs' & _).
    rewrite Hs', Hs. unfold releaseStatusFromConfig.
    repeat split.
    + intros -> ->. reflexivity.
    + intros -> ->. reflexivity.
    + intros Hne. apply String.eqb_neq in Hne. now rewrite Hne.
  - split; [apply createTrackRelease_error|].
    intros Hd. pose proof (createTrackRelease_no_dir os config versionCodes Hd) as H.
    destruct (createTrackRelease os config versionCodes); [eauto | discriminate].
Qed.

Lemma createTrackRelease_status_witness :
  exists r,
    createTrackRelease openOS (mkConfigs "" 0.5%float 3 "v1.2" "") [17%Z; 18%Z]
    = Ok r
    /\ Status r = "inProgress".
Proof.
  destruct (createTrackRelease_status openOS
              (mkConfigs "" 0.5%float 3 "v1.2" "") [17%Z; 18%Z]) as (Hs & _ & Hok).
  destruct (Hok eq_refl) as [r Hr].
  exists r. split; [exact Hr|].
  exact (proj1 (Hs r Hr) eq_refl eq_refl).
Defined.

(** ** Strings *)

Lemma app_cons a (s t : string) : String a s +:+ t = String a (s +:+ t).
Proof. reflexivity. Qed.

Lemma app_nil_l (s : string) : "" +:+ s = s.
Proof. reflexivity. Qed.

Lemma app_nil_r (s : string) : s +:+ "" = s.
Proof. induction s as [|a s IH]; [reflexivity|]. now rewrite app_cons, IH. Qed.

Lemma app_assoc (s t u : string) : (s +:+ t) +:+ u = s +:+ (t +:+ u).
Proof. induction s as [|a s IH]; [reflexivity|]. now rewrite !app_cons, IH. Qed.

Lemma length_app (s t : string) :
  String.length (s +:+ t) = (String.length s + String.length t)%nat.
Proof. induction s as [|a s IH]; [reflexivity|]. rewrite app_cons. simpl. now rewrite IH. Qed.

Lemma string_len_ind (P : string -> Prop) :
  (forall s, (forall t, (String.length t < String.length s)%nat -> P t) -> P s) ->
  forall s, P s.
Proof.
  intros H s.
  assert (G : forall n t, (String.length t < n)%nat -> P t).
  { induction n as [|n IH]; intros t Ht; [lia|].
    apply H. intros u Hu. apply IH. lia. }
  apply (G (S (String.length s))). lia.
Qed.

Lemma rev_app_spec (s t : string) : String.rev_app s t = String.rev s +:+ t.
Proof.
  unfold String.rev. revert t.
  induction s as [|a s IH]; intros t; [reflexivity|].
  simpl. rewrite (IH (String a "")), IH, app_assoc. reflexivity.
Qed.

Lemma rev_cons a (s : string) : String.rev (String a s) = String.rev s +:+ String a "".
Proof. unfold String.rev at 1. simpl. apply rev_app_spec. Qed.

Lemma rev_app_distr (s t : string) :
  String.rev (s +:+ t) = String.rev t +:+ String.rev s.
Proof.
  induction s as [|a s IH].
  - now rewrite app_nil_l, app_nil_r.
  - now rewrite app_cons, !rev_cons, IH, app_assoc.
Qed.

Lemma rev_involutive (s : string) : String.rev (String.rev s) = s.
Proof.
  induction s as [|a s IH]; [reflexivity|].
  now rewrite rev_cons, rev_app_distr, IH.
Qed.

Lemma has_byte_app c (s t : string) :
  has_byte c (s +:+ t) = has_byte c s || has_byte c t.
Proof.
  induction s as [|a s IH]; [reflexivity|].
  rewrite app_cons. simpl. now rewrite IH, orb_assoc.
Qed.

Lemma has_byte_rev c (s : string) : has_byte c (String.rev s) = has_byte c s.
Proof.
  induction s as [|a s IH]; [reflexivity|].
  rewrite rev_cons, has_byte_app, IH. simpl. now rewrite orb_false_r, orb_comm.
Qed.

Lemma prefix_app (p s : string) :
  String.prefix p s = true <-> exists r, s = p +:+ r.
Proof.
  revert s. induction p as [|a p IH]; intros s.
  - split; [intros _; exists s; reflexivity|]. intros _. now destruct s.
  - destruct s as [|b s]; simpl.
    + split; [discriminate|]. intros [r Hr]. discriminate Hr.
    + destruct (ascii_dec a b) as [->|Hne].
      * rewrite IH. split; intros [r Hr]; exists r.
        -- now rewrite app_cons, Hr.
        -- rewrite app_cons in Hr. now inversion Hr.
      * split; [discriminate|]. intros [r Hr]. rewrite app_cons in Hr.
        inversion Hr; congruence.
Qed.

Lemma prefix_app_refl (p r : string) : String.prefix p (p +:+ r) = true.
Proof. apply prefix_app. eauto. Qed.

Lemma prefix_app_l (p s t : string) :
  String.prefix p s = true -> String.prefix p (s +:+ t) = true.
Proof.
  rewrite !prefix_app. intros [r ->]. exists (r +:+ t). now rewrite app_assoc.
Qed.

(** ** The fuel of the library models *)

Lemma drop_length n s : (String.length (Fmt.drop n s) <= String.length s)%nat.
Proof.
  revert s. induction n as [|n IH]; intros [|a s]; simpl; try lia.
  specialize (IH s). lia.
Qed.

Lemma skip_flags_length s :
  (String.length (Fmt.skip_flags s) <= String.length s)%nat.
Proof.
  induction s as [|a s IH]; [reflexivity|].
  simpl. destruct (_ || _); simpl; lia.
Qed.

Lemma parsenum_from_length s :
  forall num isnum n b r,
    Fmt.parsenum_from s num isnum = (n, b, r) ->
    (String.length r <= String.length s)%nat.
Proof.
  induction s as [|a s IH]; intros num isnum n b r H; simpl in H.
  - inversion H; subst. reflexivity.
  - destruct (Fmt.is_digit a).
    + destruct (Fmt.tooLarge num).
      * inversion H; subst. simpl. lia.
      * apply IH in H. simpl. lia.
    + inversion H; subst. reflexivity.
Qed.

Lemma argNumber_length s good r found good' :
  Fmt.argNumber s good = (r, found, good') ->
  (String.length r <= String.length s)%nat.
Proof.
  unfold Fmt.argNumber. destruct s as [|a s].
  - intros H; inversion H; subst. reflexivity.
  - destruct (is_byte 91 a).
    + destruct (Fmt.parseArgNumber (String a s)) as [wid ok].
      intros H; inversion H; subst. apply drop_length.
    + intros H; inversion H; subst. reflexivity.
Qed.

Lemma width_length s afterIndex good out r afterIndex' good' :
  Fmt.width s afterIndex good = (out, r, afterIndex', good') ->
  (String.length r <= String.length s)%nat.
Proof.
  unfold Fmt.width. destruct s as [|a s].
  - intros H; inversion H; subst. reflexivity.
  - destruct (is_byte 42 a).
    + intros H; inversion H; subst. simpl. lia.
    + destruct (Fmt.parsenum (String a s)) as [[n b] r'] eqn:E.
      intros H; inversion H; subst. now apply parsenum_from_length in E.
Qed.

Lemma precision_length out s afterIndex good out' r afterIndex' good' :
  Fmt.precision out s afterIndex good = (out', r, afterIndex', good') ->
  (String.length r <= String.length s)%nat.
Proof.
  unfold Fmt.precision. destruct s as [|a s].
  - intros H; inversion H; subst. reflexivity.
  - destruct (is_byte 46 a).
    + destruct (Fmt.argNumber s _) as [[r1 a1] g1] eqn:E1.
      apply argNumber_length in E1.
      destruct r1 as [|c' r'].
      * intros H; inversion H; subst. simpl in *. lia.
      * destruct (is_byte 42 c').
        -- intros H; inversion H; subst. simpl in *. lia.
        -- destruct (Fmt.parsenum (String c' r')) as [[n b] r''] eqn:E2.
           apply parsenum_from_length in E2.
           intros H; inversion H; subst. simpl in *. lia.
    + intros H; inversion H; subst. reflexivity.
Qed.

Lemma read_verb_length s v r :
  Fmt.read_verb s = (v, r) -> (String.length r <= String.length s)%nat.
Proof.
  unfold Fmt.read_verb. destruct (Utf8.rune_size s) as [|n]; intros H.
  - assert (r = Fmt.drop 1 s) as -> by congruence. apply drop_length.
  - assert (r = Fmt.drop (S n) s) as -> by congruence. apply drop_length.
Qed.

(** What a directive leaves of the format is no longer than what it was
    given. *)
Lemma directive_length s out r :
  Fmt.directive s = (out, Some r) -> (String.length r <= String.length s)%nat.
Proof.
  unfold Fmt.directive.
  pose proof (skip_flags_length s) as H0.
  destruct (Fmt.argNumber (Fmt.skip_flags s) true) as [[s1 a1] g1] eqn:E1.
  apply argNumber_length in E1.
  destruct (Fmt.width s1 a1 g1) as [[[o2 s2] a2] g2] eqn:E2.
  apply width_length in E2.
  destruct (Fmt.precision o2 s2 a2 g2) as [[[o3 s3] a3] g3] eqn:E3.
  apply precision_length in E3.
  assert (H4 : forall s4 x g4,
             (if a3 then (s3, a3, g3) else Fmt.argNumber s3 g3) = (s4, x, g4) ->
             (String.length s4 <= String.length s3)%nat).
  { intros s4 x g4. destruct a3.
    - intros H; inversion H; subst. reflexivity.
    - apply argNumber_length. }
  destruct (if a3 then _ else _) as [[s4 x] g4].
  specialize (H4 s4 x g4 eq_refl).
  unfold Fmt.verb. destruct s4 as [|c s4]; [discriminate|].
  destruct (Fmt.read_verb (String c s4)) as [v rest] eqn:E5.
  apply read_verb_length in E5.
  destruct (is_byte 37 c); [|destruct (negb g4)];
    intros H; inversion H; subst; lia.
Qed.

(** The length of the format is fuel enough for [doPrintf]: more fuel
    prints the same. *)
Lemma doPrintf_fuel s :
  forall fuel, (String.length s <= fuel)%nat ->
    Fmt.doPrintf fuel s = Fmt.Sprintf0 s.
Proof.
  unfold Fmt.Sprintf0.
  induction s as [s IH] using string_len_ind. intros fuel Hf.
  destruct s as [|c r]; [now destruct fuel|].
  destruct fuel as [|fuel]; [simpl in Hf; lia|].
  cbn [Fmt.doPrintf String.length]. simpl in Hf.
  destruct (is_byte 37 c).
  - destruct (Fmt.directive r) as [out [r'|]] eqn:E; [|reflexivity].
    apply directive_length in E.
    rewrite (IH r' ltac:(simpl; lia) fuel ltac:(lia)).
    rewrite (IH r' ltac:(simpl; lia) (String.length r) ltac:(lia)).
    reflexivity.
  - rewrite (IH r ltac:(simpl; lia) fuel ltac:(lia)). reflexivity.
Qed.

(** The length of the text is fuel enough for the search of the leftmost
    match. *)
Lemma search_fuel r s :
  forall fuel, (String.length s <= fuel)%nat ->
    Regexp.search fuel r s = Regexp.search (String.length s) r s.
Proof.
  induction s as [s IH] using string_len_ind. intros fuel Hf.
  destruct s as [|a s']; [now destruct fuel|].
  destruct fuel as [|fuel]; [simpl in Hf; lia|].
  cbn [Regexp.search String.length]. simpl in Hf.
  destruct (Regexp.match_here r (String a s')); [reflexivity|].
  unfold Utf8.rune_width.
  destruct (Nat.max 1 (Utf8.rune_size (String a s'))) as [|w] eqn:Ew; [lia|].
  pose proof (drop_length w s') as Hd. cbn [Fmt.drop].
  rewrite (IH (Fmt.drop w s') ltac:(simpl; lia) fuel ltac:(lia)).
  rewrite (IH (Fmt.drop w s') ltac:(simpl; lia) (String.length s') ltac:(lia)).
  reflexivity.
Qed.

(** ** White space at the ends of a text *)

Section TrimFacts.
Variable sp1 : ascii -> bool.
Variable sp2 : ascii -> ascii -> bool.
Variable sp3 : ascii -> ascii -> ascii -> bool.

(** The encodings of two and three bytes are made of high bytes, and none
    starts another. *)
Hypothesis sp2_high :
  forall a b, sp2 a b = true -> is_high a = true /\ is_high b = true.
Hypothesis sp3_high :
  forall a b c, sp3 a b c = true ->
    is_high a = true /\ is_high b = true /\ is_high c = true.
Hypothesis sp1_low : forall a, sp1 a = true -> is_high a = false.
Hypothesis sp3_not_sp2 : forall a b c, sp3 a b c = true -> sp2 a b = false.

Abbreviation trim := (Strings.trim sp1 sp2 sp3).
Abbreviation lead := (Strings.lead sp1 sp2 sp3).
Abbreviation space_run := (Strings.space_run sp1 sp2 sp3).

Lemma trim_split s : exists ws, space_run ws /\ s = ws +:+ trim s.
Proof.
  induction s as [s IH] using string_len_ind.
  destruct s as [|a r1]; [exists ""; split; [constructor|reflexivity]|].
  simpl. destruct (sp1 a) eqn:E1.
  { destruct (IH r1) as (ws & Hws & Heq); [simpl; lia|].
    exists (String a ws). split; [now constructor|].
    now rewrite app_cons, <- Heq. }
  destruct r1 as [|b r2]; [exists ""; split; [constructor|reflexivity]|].
  destruct (sp2 a b) eqn:E2.
  { destruct (IH r2) as (ws & Hws & Heq); [simpl; lia|].
    exists (String a (String b ws)). split; [now constructor|].
    now rewrite !app_cons, <- Heq. }
  destruct r2 as [|c r3]; [exists ""; split; [constructor|reflexivity]|].
  destruct (sp3 a b c) eqn:E3.
  { destruct (IH r3) as (ws & Hws & Heq); [simpl; lia|].
    exists (String a (String b (String c ws))). split; [now constructor|].
    now rewrite !app_cons, <- Heq. }
  exists "". split; [constructor|reflexivity].
Qed.

Lemma trim_id s : lead s = false -> trim s = s.
Proof.
  destruct s as [|a [|b [|c r3]]]; simpl; try reflexivity.
  - now intros ->%orb_false_elim%proj1.
  - intros [-> H]%orb_false_elim. apply orb_false_elim in H as [-> _].
    reflexivity.
  - intros [-> H]%orb_false_elim. apply orb_false_elim in H as [-> ->].
    reflexivity.
Qed.

Lemma lead_trim s : lead (trim s) = false.
Proof.
  induction s as [s IH] using string_len_ind.
  destruct s as [|a r1]; [reflexivity|].
  simpl. destruct (sp1 a) eqn:E1; [apply IH; simpl; lia|].
  destruct r1 as [|b r2]; [simpl; now rewrite E1|].
  destruct (sp2 a b) eqn:E2; [apply IH; simpl; lia|].
  destruct r2 as [|c r3]; [simpl; now rewrite E1, E2|].
  destruct (sp3 a b c) eqn:E3; [apply IH; simpl; lia|].
  simpl. now rewrite E1, E2, E3.
Qed.

Lemma trim_trim s : trim (trim s) = trim s.
Proof. apply trim_id, lead_trim. Qed.

Lemma lead_app x y : lead x = true -> lead (x +:+ y) = true.
Proof.
  destruct x as [|a [|b [|c r3]]]; simpl; try discriminate.
  - rewrite orb_false_r. intros ->. reflexivity.
  - rewrite orb_false_r. intros H.
    apply orb_true_iff in H as [->| ->]; [reflexivity|].
    simpl. apply orb_true_r.
  - intros H. exact H.
Qed.

Lemma trim_run_app ws x : space_run ws -> trim (ws +:+ x) = trim x.
Proof.
  induction 1 as [|a s H1 _ IH|a b s H2 _ IH|a b c s H3 _ IH].
  - reflexivity.
  - rewrite app_cons. simpl. now rewrite H1.
  - rewrite !app_cons. simpl.
    destruct (sp1 a) eqn:E1.
    + apply sp1_low in E1. apply sp2_high in H2 as [Ha _]. congruence.
    + now rewrite H2.
  - rewrite !app_cons. simpl.
    destruct (sp1 a) eqn:E1.
    + apply sp1_low in E1. apply sp3_high in H3 as [Ha _]. congruence.
    + rewrite (sp3_not_sp2 _ _ _ H3). now rewrite H3.
Qed.

(** A low byte that is no white space ends the trimming. *)
Lemma trim_app_low u a y :
  is_high a = false -> sp1 a = false ->
  trim (u +:+ String a y) = trim u +:+ String a y.
Proof.
  intros Ha Hs.
  assert (N2 : forall x, sp2 x a = false).
  { intros x. destruct (sp2 x a) eqn:E; [|reflexivity].
    apply sp2_high in E as [_ E]. congruence. }
  assert (N2' : forall x, sp2 a x = false).
  { intros x. destruct (sp2 a x) eqn:E; [|reflexivity].
    apply sp2_high in E as [E _]. congruence. }
  assert (N3 : forall x y, sp3 x y a = false).
  { intros x z. destruct (sp3 x z a) eqn:E; [|reflexivity].
    apply sp3_high in E as (_ & _ & E). congruence. }
  assert (N3' : forall x y, sp3 x a y = false).
  { intros x z. destruct (sp3 x a z) eqn:E; [|reflexivity].
    apply sp3_high in E as (_ & E & _). congruence. }
  assert (N3'' : forall x y, sp3 a x y = false).
  { intros x z. destruct (sp3 a x z) eqn:E; [|reflexivity].
    apply sp3_high in E as (E & _ & _). congruence. }
  induction u as [u IH] using string_len_ind.
  destruct u as [|a1 u1].
  { rewrite app_nil_l. simpl. rewrite Hs.
    destruct y as [|b y]; [reflexivity|]. rewrite N2'.
    destruct y as [|c y]; [reflexivity|]. now rewrite N3''. }
  rewrite app_cons. simpl. destruct (sp1 a1) eqn:E1; [apply IH; simpl; lia|].
  destruct u1 as [|b1 u2].
  { rewrite app_nil_l, N2. destruct y as [|c y]; [reflexivity|].
    now rewrite N3'. }
  rewrite app_cons. destruct (sp2 a1 b1) eqn:E2; [apply IH; simpl; lia|].
  destruct u2 as [|c1 u3].
  { rewrite app_nil_l. now rewrite N3. }
  rewrite app_cons. destruct (sp3 a1 b1 c1) eqn:E3; [apply IH; simpl; lia|].
  reflexivity.
Qed.

(** A run of white space holds no low byte other than white space. *)
Lemma space_run_bytes ws c :
  space_run ws -> is_high c = false -> sp1 c = false -> has_byte c ws = false.
Proof.
  intros Hws Hc Hs.
  assert (N : forall a, (is_high a = true \/ sp1 a = true) -> Ascii.eqb a c = false).
  { intros a Ha. destruct (Ascii.eqb_spec a c) as [->|]; [|reflexivity].
    destruct Ha; congruence. }
  induction Hws as [|a s H1 _ IH|a b s H2 _ IH|a b c' s H3 _ IH]; simpl.
  - reflexivity.
  - now rewrite N by auto.
  - apply sp2_high in H2 as [? ?]. now rewrite !N by auto.
  - apply sp3_high in H3 as (? & ? & ?). now rewrite !N by auto.
Qed.
End TrimFacts.

Ltac bytes_to_prop :=
  unfold Strings.asciiSpace, Strings.space2, Strings.space3, is_high, is_byte,
    RuneSelf in *;
  repeat first
    [ rewrite <- not_true_iff_false in *
    | rewrite andb_true_iff in *
    | rewrite orb_true_iff in *
    | rewrite N.leb_le in *
    | rewrite N.eqb_eq in * ].

Lemma asciiSpace_low a : Strings.asciiSpace a = true -> is_high a = false.
Proof. bytes_to_prop. lia. Qed.

Lemma space2_high a b :
  Strings.space2 a b = true -> is_high a = true /\ is_high b = true.
Proof. bytes_to_prop. lia. Qed.

Lemma space3_high a b c :
  Strings.space3 a b c = true ->
  is_high a = true /\ is_high b = true /\ is_high c = true.
Proof. bytes_to_prop. lia. Qed.

Lemma space3_not_space2 a b c :
  Strings.space3 a b c = true -> Strings.space2 a b = false.
Proof. bytes_to_prop. lia. Qed.

Lemma space3_not_space2_rev a b c :
  Strings.space3 c b a = true -> Strings.space2 b a = false.
Proof. bytes_to_prop. lia. Qed.

(** The white space that [TrimLeft] removes, and the one that [TrimRight]
    removes (read from the end). *)
Abbreviation space_run_l :=
  (Strings.space_run Strings.asciiSpace Strings.space2 Strings.space3).
Abbreviation space_run_r :=
  (Strings.space_run Strings.asciiSpace (fun a b => Strings.space2 b a)
     (fun a b c => Strings.space3 c b a)).

Lemma plain_inv c : plain c = true -> is_high c = false /\ Strings.asciiSpace c = false.
Proof.
  unfold plain. intros [H1 H2]%andb_true_iff.
  now apply negb_true_iff in H1, H2.
Qed.

Lemma space_run_l_bytes ws c :
  space_run_l ws -> plain c = true -> has_byte c ws = false.
Proof.
  intros Hws [Hc Hs]%plain_inv.
  eapply space_run_bytes; eauto using space2_high, space3_high.
Qed.

Lemma space_run_r_bytes ws c :
  space_run_r ws -> plain c = true -> has_byte c ws = false.
Proof.
  intros Hws [Hc Hs]%plain_inv.
  eapply space_run_bytes; eauto.
  - intros a b H. apply space2_high in H. tauto.
  - intros a b d H. apply space3_high in H. tauto.
Qed.

Lemma TrimLeft_split s : exists ws, space_run_l ws /\ s = ws +:+ Strings.TrimLeft s.
Proof. apply trim_split. Qed.

Lemma TrimRight_split s : exists ws, space_run_r ws /\ s = Strings.TrimRight s +:+ String.rev ws.
Proof.
  unfold Strings.TrimRight.
  destruct (trim_split Strings.asciiSpace (fun a b => Strings.space2 b a)
              (fun a b c => Strings.space3 c b a) (String.rev s))
    as (ws & Hws & Heq).
  exists ws. split; [exact Hws|].
  rewrite <- rev_app_distr, <- Heq. symmetry. apply rev_involutive.
Qed.

Lemma TrimLeft_run_app ws x :
  space_run_l ws -> Strings.TrimLeft (ws +:+ x) = Strings.TrimLeft x.
Proof.
  apply trim_run_app;
    eauto using space2_high, space3_high, asciiSpace_low, space3_not_space2.
Qed.

Lemma TrimLeft_cons_plain a s :
  plain a = true -> Strings.TrimLeft (String a s) = String a s.
Proof.
  intros [Ha Hs]%plain_inv. unfold Strings.TrimLeft.
  rewrite <- (app_nil_l (String a s)).
  rewrite trim_app_low; eauto using space2_high, space3_high.
Qed.

Lemma TrimRight_cons_plain a s :
  plain a = true -> Strings.TrimRight (String a s) = String a (Strings.TrimRight s).
Proof.
  intros [Ha Hs]%plain_inv. unfold Strings.TrimRight.
  rewrite rev_cons, trim_app_low; auto.
  - rewrite rev_app_distr. reflexivity.
  - intros x y H. apply space2_high in H. tauto.
  - intros x y z H. apply space3_high in H. tauto.
Qed.

Lemma TrimSpace_cons_plain a s :
  plain a = true -> Strings.TrimSpace (String a s) = String a (Strings.TrimRight s).
Proof.
  intros Ha. unfold Strings.TrimSpace.
  now rewrite TrimLeft_cons_plain, TrimRight_cons_plain.
Qed.

Lemma TrimRight_idem s : Strings.TrimRight (Strings.TrimRight s) = Strings.TrimRight s.
Proof. unfold Strings.TrimRight. now rewrite rev_involutive, trim_trim. Qed.

(** Trimming a trimmed text changes nothing. *)
Lemma TrimSpace_idem s : Strings.TrimSpace (Strings.TrimSpace s) = Strings.TrimSpace s.
Proof.
  unfold Strings.TrimSpace.
  assert (H : Strings.TrimLeft (Strings.TrimRight (Strings.TrimLeft s))
              = Strings.TrimRight (Strings.TrimLeft s)).
  { apply trim_id.
    destruct (Strings.lead Strings.asciiSpace Strings.space2 Strings.space3
                (Strings.TrimRight (Strings.TrimLeft s))) eqn:E; [|reflexivity].
    destruct (TrimRight_split (Strings.TrimLeft s)) as (ws & _ & Heq).
    apply (lead_app _ _ _ _ (String.rev ws)) in E.
    rewrite <- Heq in E. unfold Strings.TrimLeft in E.
    now rewrite lead_trim in E. }
  rewrite H. apply TrimRight_idem.
Qed.

(** Trimming adds no byte. *)
Lemma TrimSpace_bytes c s :
  has_byte c (Strings.TrimSpace s) = true -> has_byte c s = true.
Proof.
  unfold Strings.TrimSpace. intros H.
  destruct (TrimLeft_split s) as (ws & _ & Heq).
  destruct (TrimRight_split (Strings.TrimLeft s)) as (ws' & _ & Heq').
  rewrite Heq, has_byte_app, Heq', has_byte_app, H.
  now rewrite orb_true_r.
Qed.

(** ** Splitting *)

Lemma split_at_app sep x r :
  has_byte sep x = false ->
  Strings.split_at sep (x +:+ String sep r)
  = (x, fst (Strings.split_at sep r) :: snd (Strings.split_at sep r)).
Proof.
  induction x as [|a x IH]; intros H.
  - rewrite app_nil_l. simpl. rewrite Ascii.eqb_refl.
    now destruct (Strings.split_at sep r).
  - simpl in H. apply orb_false_elim in H as [Ha Hx].
    rewrite app_cons. simpl. rewrite (IH Hx), Ha. reflexivity.
Qed.

Lemma split_at_no_sep sep s :
  has_byte sep s = false -> Strings.split_at sep s = (s, []).
Proof.
  induction s as [|a s IH]; intros H; [reflexivity|].
  simpl in H. apply orb_false_elim in H as [Ha Hs].
  simpl. now rewrite (IH Hs), Ha.
Qed.

Lemma Split_app sep x r :
  has_byte sep x = false ->
  Strings.Split (x +:+ String sep r) sep = x :: Strings.Split r sep.
Proof.
  intros H. unfold Strings.Split. rewrite (split_at_app _ _ _ H).
  now destruct (Strings.split_at sep r).
Qed.

Lemma Split_no_sep sep s : has_byte sep s = false -> Strings.Split s sep = [s].
Proof. intros H. unfold Strings.Split. now rewrite (split_at_no_sep _ _ H). Qed.

Lemma Split_length sep s : (1 <= length (Strings.Split s sep))%nat.
Proof. unfold Strings.Split. destruct (Strings.split_at sep s). simpl. lia. Qed.

(** ** Expansion file entries *)

(** An entry whose trimmed text starts with the tag [t] and a colon is
    white space, the tag, the colon and a rest; [expFileInfo] finds the tag
    and joins the segments of the rest. *)
Lemma expFileInfo_tagged t e :
  has_byte ":" t = false ->
  Strings.TrimLeft t = t -> Strings.TrimRight t = t ->
  Strings.HasPrefix (Strings.TrimSpace e) (t +:+ ":") = true ->
  exists ws r,
    space_run_l ws /\ e = (ws +:+ t) +:+ String ":" r
    /\ Strings.Split e ":" = (ws +:+ t) :: Strings.Split r ":"
    /\ expFileInfo e
       = Ok (Strings.TrimSpace (Strings.Join (Strings.Split r ":") ""), t).
Proof.
  intros Ht Hl Hr Hp. unfold Strings.HasPrefix, Strings.TrimSpace in Hp.
  destruct (TrimLeft_split e) as (ws & Hws & He).
  destruct (TrimRight_split (Strings.TrimLeft e)) as (ws' & _ & He').
  apply (prefix_app_l _ _ (String.rev ws')) in Hp. rewrite <- He' in Hp.
  apply prefix_app in Hp as [r Hr'].
  assert (Heq : e = (ws +:+ t) +:+ String ":" r).
  { rewrite He at 1. rewrite Hr'. now rewrite !app_assoc. }
  assert (Hc : has_byte ":" (ws +:+ t) = false).
  { rewrite has_byte_app, Ht, (space_run_l_bytes _ _ Hws); reflexivity. }
  assert (Hsplit : Strings.Split e ":" = (ws +:+ t) :: Strings.Split r ":").
  { rewrite Heq at 1. now apply Split_app. }
  exists ws, r. repeat split; auto.
  unfold expFileInfo. rewrite Hsplit.
  pose proof (Split_length ":" r) as Hlen.
  replace (length ((ws +:+ t) :: Strings.Split r ":") <? 2)%nat with false
    by (symmetry; apply Nat.ltb_ge; simpl; lia).
  simpl nth. simpl tl.
  unfold Strings.TrimSpace at 2. now rewrite TrimLeft_run_app, Hl, Hr.
Qed.

Lemma validateExpansionFileConfig_inv e :
  validateExpansionFileConfig e = true ->
  Strings.HasPrefix (Strings.TrimSpace e) ("main" +:+ ":") = true
  \/ Strings.HasPrefix (Strings.TrimSpace e) ("patch" +:+ ":") = true.
Proof. unfold validateExpansionFileConfig. intros H. now apply orb_true_iff in H. Qed.

(** C9. For every entry that [validateExpansionFileConfig] accepts, the
    split of [expFileInfo] has at least two segments, so that [expFileInfo]
    does not take its error branch, and the type it returns is [main] or
    [patch]. *)
Theorem expFileInfo_of_valid_entry e :
  validateExpansionFileConfig e = true ->
  (2 <= length (Strings.Split e ":"))%nat
  /\ exists expFilePth expFileType,
       expFileInfo e = Ok (expFilePth, expFileType)
       /\ (expFileType = "main" \/ expFileType = "patch").
Proof.
  intros H. apply validateExpansionFileConfig_inv in H as [H|H];
    apply expFileInfo_tagged in H as (ws & r & _ & _ & Hs & Hi);
    try reflexivity.
  - split; [rewrite Hs; pose proof (Split_length ":" r); simpl; lia|].
    eexists _, _. split; [exact Hi|]. now left.
  - split; [rewrite Hs; pose proof (Split_length ":" r); simpl; lia|].
    eexists _, _. split; [exact Hi|]. now right.
Qed.

Lemma expFileInfo_of_valid_entry_witness :
  validateExpansionFileConfig "  patch: /sdcard/p.obb " = true
  /\ (2 <= length (Strings.Split "  patch: /sdcard/p.obb " ":"))%nat
  /\ exists expFilePth expFileType,
       expFileInfo "  patch: /sdcard/p.obb " = Ok (expFilePth, expFileType)
       /\ (expFileType = "main" \/ expFileType = "patch").
Proof.
  split; [reflexivity|].
  apply (expFileInfo_of_valid_entry "  patch: /sdcard/p.obb "). reflexivity.
Defined.

Lemma validate_trimmed_inv e :
  validateExpansionFileConfig (Strings.TrimSpace e) = true ->
  has_byte ":" e = true
  /\ (typeSegment e = "main" \/ typeSegment e = "patch").
Proof.
  intros H. unfold validateExpansionFileConfig in H.
  rewrite TrimSpace_idem in H. unfold Strings.HasPrefix, typeSegment in *.
  apply orb_true_iff in H as [H|H]; apply prefix_app in H as [r Hr].
  - split; [apply TrimSpace_bytes; rewrite Hr; reflexivity|].
    left. rewrite Hr. change ("main:" +:+ r) with ("main" +:+ String ":" r).
    now rewrite Split_app.
  - split; [apply TrimSpace_bytes; rewrite Hr; reflexivity|].
    right. rewrite Hr. change ("patch:" +:+ r) with ("patch" +:+ String ":" r).
    now rewrite Split_app.
Qed.

(** C6. For a malformed entry, [uploadExpansionFiles] returns the
    invalid-config error and has made no call to the outside: no file was
    opened (so no error of opening a file can be its result), and nothing
    was uploaded. *)
Theorem uploadExpansionFiles_malformed os service e packageName appEditID versionCode :
  malformed e ->
  uploadExpansionFiles os service e packageName appEditID versionCode
  = ([], Err ("invalid expansion file config: " +:+ e)).
Proof.
  intros Hm. unfold uploadExpansionFiles.
  destruct (validateExpansionFileConfig (Strings.TrimSpace e)) eqn:E;
    [|reflexivity].
  apply validate_trimmed_inv in E as [Hc Ht].
  destruct Hm as [Hm|[Hm1 Hm2]]; [congruence|]. destruct Ht; contradiction.
Qed.

Lemma uploadExpansionFiles_malformed_witness :
  malformed "Main:/no/such/file.obb"
  /\ uploadExpansionFiles
       (mkOS (fun p => Err "no such file or directory") (fun _ => Ok [])
          (fun _ => Err "no such file or directory"))
       (mkService (fun _ _ _ _ _ => Ok tt) (fun _ _ _ _ _ => Ok tt)
          (fun _ _ _ _ => Ok (mkBundle 1)) (fun _ _ _ => Ok (mkApk 1)))
       "Main:/no/such/file.obb" "com.example.app" "edit-1" 42
     = ([], Err "invalid expansion file config: Main:/no/such/file.obb").
Proof.
  assert (H : malformed "Main:/no/such/file.obb").
  { right. split; discriminate. }
  split; [exact H|].
  exact (uploadExpansionFiles_malformed _ _ _ _ _ _ H).
Defined.

(** The segments of a split hold no separator, and neither does their
    join by the empty text. *)
Lemma split_at_no_sep_in sep s :
  has_byte sep (fst (Strings.split_at sep s)) = false
  /\ Forall (fun seg => has_byte sep seg = false) (snd (Strings.split_at sep s)).
Proof.
  induction s as [|a s [IH1 IH2]]; [split; [reflexivity|constructor]|].
  simpl. destruct (Strings.split_at sep s) as [seg segs]. simpl in *.
  destruct (Ascii.eqb a sep) eqn:E; simpl.
  - split; [reflexivity|]. now constructor.
  - split; [now rewrite E|]. exact IH2.
Qed.

Lemma Join_empty_no_sep sep (l : list string) :
  Forall (fun seg => has_byte sep seg = false) l ->
  has_byte sep (Strings.Join l "") = false.
Proof.
  induction 1 as [|x l Hx Hl IH]; [reflexivity|].
  destruct l as [|y l]; [exact Hx|].
  change (Strings.Join (x :: y :: l) "") with (x +:+ "" +:+ Strings.Join (y :: l) "").
  now rewrite !has_byte_app, Hx, IH.
Qed.

(** The path that [expFileInfo] returns never holds a colon: the join by
    the empty text drops every colon of the entry. *)
Lemma expFileInfo_path_no_colon e expFilePth expFileType :
  expFileInfo e = Ok (expFilePth, expFileType) -> has_byte ":" expFilePth = false.
Proof.
  unfold expFileInfo.
  destruct (length (Strings.Split e ":") <? 2)%nat; [discriminate|].
  intros H. inversion H; subst.
  destruct (has_byte ":" _) eqn:E; [|reflexivity].
  apply TrimSpace_bytes in E.
  rewrite Join_empty_no_sep in E; [discriminate|].
  unfold Strings.Split.
  pose proof (split_at_no_sep_in ":" e) as [H1 H2].
  destruct (Strings.split_at ":" e) as [seg segs]. exact H2.
Qed.

Lemma without_colons_id p : has_byte ":" p = false -> without_colons p = p.
Proof. intros H. unfold without_colons. now rewrite Split_no_sep. Qed.

(** For a path without a colon, [expFileInfo] returns the tag and the
    trimmed path. *)
Lemma expFileInfo_simple_path t p :
  has_byte ":" t = false -> has_byte ":" p = false ->
  expFileInfo (t +:+ String ":" p)
  = Ok (Strings.TrimSpace p, Strings.TrimSpace t).
Proof.
  intros Ht Hp. unfold expFileInfo.
  rewrite (Split_app _ _ _ Ht), (Split_no_sep _ _ Hp). reflexivity.
Qed.

(** For an entry [<t>:<p>] with [<t>] one of [main] and [patch],
    [expFileInfo] returns the type [<t>], and the path [<p>] without its
    colons, trimmed. *)
Lemma expFileInfo_typed_entry t p :
  t = "main" \/ t = "patch" ->
  expFileInfo (t +:+ String ":" p)
  = Ok (Strings.TrimSpace (without_colons p), t).
Proof.
  intros Ht. unfold expFileInfo, without_colons.
  rewrite Split_app by (destruct Ht as [-> | ->]; reflexivity).
  pose proof (Split_length ":" p) as Hl.
  replace (length (t :: Strings.Split p ":") <? 2)%nat with false
    by (symmetry; apply Nat.ltb_ge; simpl; lia).
  cbn [nth tl]. destruct Ht as [-> | ->]; reflexivity.
Qed.

(** What [uploadExpansionFiles] parses from an entry that is [<t>:<p>] once
    trimmed, with [<t>] one of [main] and [patch]: the type [<t>], and the
    path [<p>] without its colons, trimmed; that file is opened, then
    uploaded. *)
Lemma uploadExpansionFiles_parsed os service e packageName appEditID versionCode t p :
  t = "main" \/ t = "patch" ->
  Strings.TrimSpace e = t +:+ String ":" p ->
  uploadExpansionFiles os service e packageName appEditID versionCode
  = (do expansionFile <-
       call (EvOpen (Strings.TrimSpace (without_colons p)))
         (os_Open os (Strings.TrimSpace (without_colons p)))
         (fun err => "failed to read expansion file (<nil>), error: " +:+ err);
     call (EvExpansionfilesUpload packageName appEditID versionCode t
             expansionFile)
       (svc_Expansionfiles service packageName appEditID versionCode t
          expansionFile)
       (fun err => "failed to upload expansion file, error: " +:+ err)).
Proof.
  intros Ht He. unfold uploadExpansionFiles.
  assert (Hv : validateExpansionFileConfig (Strings.TrimSpace e) = true).
  { unfold validateExpansionFileConfig, Strings.HasPrefix.
    rewrite TrimSpace_idem, He. destruct Ht as [-> | ->].
    - change ("main" +:+ String ":" p) with ("main:" +:+ p).
      now rewrite prefix_app_refl.
    - change ("patch" +:+ String ":" p) with ("patch:" +:+ p).
      rewrite (prefix_app_refl "patch:"). apply orb_true_r. }
  rewrite Hv. cbn [negb].
  rewrite He at 1. rewrite (expFileInfo_typed_entry t p Ht). reflexivity.
Qed.

(** C1. For the entry [main:/a:b/c.obb], whose path part holds a colon,
    [expFileInfo] returns the path [/ab/c.obb]: the colon is removed, where
    the remainder [/a:b/c.obb] after the first colon was to be returned.
    No path that [expFileInfo] returns holds a colon. *)
Theorem expFileInfo_embedded_colon :
  expFileInfo "main:/a:b/c.obb" = Ok ("/ab/c.obb", "main")
  /\ forall e expFilePth expFileType,
       expFileInfo e = Ok (expFilePth, expFileType) ->
       has_byte ":" expFilePth = false.
Proof. split; [reflexivity|]. exact expFileInfo_path_no_colon. Qed.

(** C5. For the entry [ main:/a:b/c.obb ], of the form [main:<p>] once
    trimmed, [uploadExpansionFiles] parses the type [main] and the path
    [/ab/c.obb], which it opens and uploads: the path is not the trimmed
    [<p>], [/a:b/c.obb].  For every entry of the form [main:<p>] or
    [patch:<p>] once trimmed, the type parsed is [main] or [patch] and the
    path is [<p>] without its colons, trimmed. *)
Theorem uploadExpansionFiles_colon_path :
  uploadExpansionFiles openOS acceptingService " main:/a:b/c.obb "
    "com.example.app" "edit-1" 42
  = ([EvOpen "/ab/c.obb";
      EvExpansionfilesUpload "com.example.app" "edit-1" 42 "main"
        (mkFile "/ab/c.obb")],
     Ok tt)
  /\ forall e t p,
       t = "main" \/ t = "patch" ->
       Strings.TrimSpace e = t +:+ String ":" p ->
       expFileInfo (Strings.TrimSpace e)
       = Ok (Strings.TrimSpace (without_colons p), t)
       /\ forall os service packageName appEditID versionCode,
            exists r,
              uploadExpansionFiles os service e packageName appEditID versionCode
              = (EvOpen (Strings.TrimSpace (without_colons p)) :: fst r, snd r).
Proof.
  split; [reflexivity|]. intros e t p Ht He. split.
  - rewrite He. now apply expFileInfo_typed_entry.
  - intros os service packageName appEditID versionCode.
    rewrite (uploadExpansionFiles_parsed _ _ _ _ _ _ t p Ht He).
    unfold bind, call.
    destruct (os_Open os _) as [f|err].
    + destruct (svc_Expansionfiles service _ _ _ _ f) as [u|err'].
      * exists ([EvExpansionfilesUpload packageName appEditID versionCode t f], Ok u).
        reflexivity.
      * eexists ([EvExpansionfilesUpload packageName appEditID versionCode t f], Err _).
        reflexivity.
    + eexists ([], Err _). reflexivity.
Qed.

(** ** Bundle upload errors *)

Lemma is_byte_eqb n c : is_byte n c = true -> c = ascii_of_N n.
Proof.
  unfold is_byte, byte_val. intros H%N.eqb_eq.
  rewrite <- H. symmetry. apply ascii_N_embedding.
Qed.

Lemma is_byte_percent c : is_byte 37 c = Ascii.eqb c "%".
Proof.
  destruct (is_byte 37 c) eqn:E.
  - apply is_byte_eqb in E. subst. reflexivity.
  - destruct (Ascii.eqb_spec c "%") as [->|]; [discriminate E|reflexivity].
Qed.

(** A format without a percent sign is printed as it stands. *)
Lemma doPrintf_no_percent s :
  has_byte "%" s = false ->
  forall fuel, (String.length s <= fuel)%nat -> Fmt.doPrintf fuel s = s.
Proof.
  induction s as [|a s IH]; intros H fuel Hf.
  - now destruct fuel.
  - simpl in H. apply orb_false_elim in H as [Ha Hs].
    destruct fuel as [|fuel]; [simpl in Hf; lia|].
    simpl. rewrite is_byte_percent, Ha. f_equal. apply IH; [exact Hs|].
    simpl in Hf. lia.
Qed.

Lemma Sprintf0_no_percent s : has_byte "%" s = false -> Fmt.Sprintf0 s = s.
Proof. intros H. unfold Fmt.Sprintf0. now apply doPrintf_no_percent. Qed.

Lemma bundleErrorMsg_no_percent err :
  has_byte "%" err = false -> has_byte "%" (bundleErrorMsg err) = false.
Proof.
  intros H. unfold bundleErrorMsg.
  destruct (Strings.Contains err bundleInstallationWarning);
    rewrite ?has_byte_app, H; reflexivity.
Qed.

(** For a remote error without a percent sign, the error of
    [uploadAppBundle] is the wrapped remote message, followed by the hint
    exactly when the remote message holds the installation warning. *)
Lemma uploadAppBundle_error_plain
    service packageName appEditID appFile ack err :
  svc_Bundles service packageName appEditID appFile ack = Err err ->
  has_byte "%" err = false ->
  outcome (uploadAppBundle service packageName appEditID appFile ack)
  = Err (if Strings.Contains err bundleInstallationWarning
         then ("failed to upload app bundle, error: " +:+ err) +:+ ackHint
         else "failed to upload app bundle, error: " +:+ err).
Proof.
  intros Hs Hp. unfold uploadAppBundle, call. rewrite Hs. simpl.
  rewrite Sprintf0_no_percent by now apply bundleErrorMsg_no_percent.
  unfold bundleErrorMsg.
  now destruct (Strings.Contains err bundleInstallationWarning).
Qed.

(** C4. For a remote error whose text holds a percent sign and no
    installation warning, the error of [uploadAppBundle] is not the wrapped
    remote message: [fmt.Errorf] is given the message as its format, and
    reads the percent sign as the start of a verb.  For every remote error
    without a percent sign, the error is the wrapped remote message, with
    the hint after it exactly when the remote text holds the installation
    warning. *)
Theorem uploadAppBundle_percent_in_remote_error :
  Strings.Contains "googleapi: Error 400: 50% rollout is not allowed"
    bundleInstallationWarning = false
  /\ outcome
       (uploadAppBundle
          (rejectingService "googleapi: Error 400: 50% rollout is not allowed")
          "com.example.app" "edit-1" (mkFile "app.aab") false)
     = Err "failed to upload app bundle, error: googleapi: Error 400: 50%!r(MISSING)ollout is not allowed"
  /\ forall service packageName appEditID appFile ack err,
       svc_Bundles service packageName appEditID appFile ack = Err err ->
       has_byte "%" err = false ->
       outcome (uploadAppBundle service packageName appEditID appFile ack)
       = Err (if Strings.Contains err bundleInstallationWarning
              then ("failed to upload app bundle, error: " +:+ err) +:+ ackHint
              else "failed to upload app bundle, error: " +:+ err).
Proof.
  split; [reflexivity|]. split; [reflexivity|].
  exact uploadAppBundle_error_plain.
Qed.

(** With the installation warning followed by a percent sign and a long
    number, the hint is lost with the rest of the format. *)
Lemma uploadAppBundle_hint_lost :
  Strings.Contains (bundleInstallationWarning +:+ " (quota %12345678)")
    bundleInstallationWarning = true
  /\ outcome
       (uploadAppBundle
          (rejectingService (bundleInstallationWarning +:+ " (quota %12345678)"))
          "com.example.app" "edit-1" (mkFile "app.aab") false)
     = Err (("failed to upload app bundle, error: " +:+ bundleInstallationWarning)
            +:+ " (quota %!(NOVERB)").
Proof. split; vm_compute; reflexivity. Qed.

(** ** The locale of a path *)

Lemma drop_app (p x : string) : Fmt.drop (String.length p) (p +:+ x) = x.
Proof. induction p as [|a p IH]; [now destruct x|]. rewrite app_cons. exact IH. Qed.

Lemma drop_length_lt n a s :
  (String.length (Fmt.drop (S n) (String a s)) < String.length (String a s))%nat.
Proof. simpl. pose proof (drop_length n s). lia. Qed.

Lemma has_byte_drop c n s : has_byte c s = false -> has_byte c (Fmt.drop n s) = false.
Proof.
  revert s. induction n as [|n IH]; intros [|a s] H; simpl; auto.
  simpl in H. apply orb_false_elim in H as [_ H]. auto.
Qed.

Lemma substring_full s : String.substring 0 (String.length s) s = s.
Proof. induction s as [|a s IH]; [reflexivity|]. simpl. now rewrite IH. Qed.

Lemma consumed_all s : Regexp.consumed s "" = s.
Proof. unfold Regexp.consumed. simpl. rewrite Nat.sub_0_r. apply substring_full. Qed.

Lemma rune_width_pos s : (1 <= Utf8.rune_width s)%nat.
Proof. unfold Utf8.rune_width. lia. Qed.

Lemma is_byte_LF c : is_byte 10 c = Ascii.eqb c "010".
Proof.
  destruct (is_byte 10 c) eqn:E.
  - apply is_byte_eqb in E. subst. reflexivity.
  - destruct (Ascii.eqb_spec c "010") as [->|]; [discriminate E|reflexivity].
Qed.

(** On a text without a line feed, [.*] takes the whole text when what
    follows it in the expression matches at the end of the text. *)
Lemma star_any_greedy {X} (k : string -> Regexp.caps -> option X) c x :
  k "" c = Some x ->
  forall n t,
    (String.length t <= n)%nat ->
    has_byte "010" t = false ->
    Regexp.star_loop (Regexp.run Regexp.AnyNotNL) k n t c = Some x.
Proof.
  intros Hk. induction n as [|n IH]; intros t Hn Ht.
  - destruct t as [|b t]; [exact Hk|simpl in Hn; lia].
  - destruct t as [|b t]; [exact Hk|].
    simpl in Ht. apply orb_false_elim in Ht as [Hb Ht].
    cbn [Regexp.star_loop Regexp.run].
    rewrite is_byte_LF, Hb.
    pose proof (rune_width_pos (String b t)) as Hw.
    destruct (Utf8.rune_width (String b t)) as [|w]; [lia|].
    pose proof (drop_length_lt w b t) as Hlt.
    apply Nat.ltb_lt in Hlt. rewrite Hlt.
    rewrite IH; [reflexivity| |].
    + simpl. pose proof (drop_length w t). simpl in Hn. lia.
    + simpl. now apply has_byte_drop.
Qed.

Lemma match_here_none s :
  locale_starts s = false -> Regexp.match_here whatsnewPattern s = None.
Proof.
  unfold locale_starts, Regexp.match_here, whatsnewPattern.
  cbn [Regexp.run]. change (String.length "whatsnew-") with 9%nat.
  destruct (String.prefix "whatsnew-" s); [|reflexivity].
  rewrite andb_true_l.
  destruct (Fmt.drop 9 s) as [|a t]; [reflexivity|].
  now intros ->.
Qed.

Section RunEquations.
Context {X : Type}.
Variables (s : string) (c : Regexp.caps) (k : string -> Regexp.caps -> option X).

Lemma run_Lit l :
  Regexp.run (Regexp.Lit l) s c k
  = if String.prefix l s then k (Fmt.drop (String.length l) s) c else None.
Proof. reflexivity. Qed.

Lemma run_Seq r1 r2 :
  Regexp.run (Regexp.Seq r1 r2) s c k
  = Regexp.run r1 s c (fun s' c' => Regexp.run r2 s' c' k).
Proof. reflexivity. Qed.

Lemma run_Star r :
  Regexp.run (Regexp.Star r) s c k
  = Regexp.star_loop (Regexp.run r) k (String.length s) s c.
Proof. reflexivity. Qed.

Lemma run_Plus r :
  Regexp.run (Regexp.Plus r) s c k
  = Regexp.run r s c
      (fun s' c' => Regexp.star_loop (Regexp.run r) k (String.length s') s' c').
Proof. reflexivity. Qed.

Lemma run_Group n r :
  Regexp.run (Regexp.Group n r) s c k
  = Regexp.run r s c (fun s' c' => k s' ((n, Regexp.consumed s s') :: c')).
Proof. reflexivity. Qed.
End RunEquations.

Lemma run_Class {X} p a s c (k : string -> Regexp.caps -> option X) :
  Regexp.run (Regexp.Class p) (String a s) c k = if p a then k s c else None.
Proof. reflexivity. Qed.

Lemma match_here_tag tag :
  locale_tag tag = true ->
  Regexp.match_here whatsnewPattern ("whatsnew-" +:+ tag)
  = Some ("", [(1%nat, tag); (2%nat, tag); (3%nat, "")]).
Proof.
  destruct tag as [|a t]; [discriminate|].
  intros [Ha Ht]%andb_true_iff. apply negb_true_iff in Ht.
  unfold Regexp.match_here, whatsnewPattern.
  rewrite run_Seq, run_Lit.
  replace (String.prefix "whatsnew-" ("whatsnew-" +:+ String a t)) with true
    by (symmetry; apply prefix_app; eauto).
  rewrite drop_app.
  rewrite run_Group, run_Plus, run_Group, run_Seq, run_Class, Ha.
  rewrite run_Seq, run_Star.
  apply star_any_greedy; [|lia|exact Ht].
  cbn -[Regexp.consumed]. now rewrite !consumed_all.
Qed.

(** *** Runes *)

Lemma in_range_low lo hi e :
  is_high e = false -> (128 <= lo)%N -> Utf8.in_range lo hi e = false.
Proof.
  unfold Utf8.in_range, is_high, RuneSelf. intros H Hlo.
  apply N.leb_gt in H. apply andb_false_iff. left. apply N.leb_gt. lia.
Qed.

Ltac low_byte H :=
  repeat match goal with
    | |- context [Utf8.in_range ?lo ?hi ?e] =>
        rewrite (in_range_low lo hi e H) by (try destruct (is_byte _ _); lia)
    end.

(** The rune at the head of a text does not reach over a low byte. *)
Lemma rune_width_app_low pre e rest :
  pre <> "" -> is_high e = false ->
  (Utf8.rune_width (pre +:+ String e rest) <= String.length pre)%nat.
Proof.
  intros Hne He. unfold Utf8.rune_width.
  destruct pre as [|a [|b [|c [|d pre]]]]; [congruence|..];
    rewrite ?app_cons, ?app_nil_l; cbn [Utf8.rune_size String.length].
  - destruct (negb (is_high a)); [lia|].
    destruct (Utf8.in_range 194 223 a).
    + low_byte He. lia.
    + destruct rest as [|c r3]; [lia|].
      destruct (Utf8.in_range 224 239 a).
      * low_byte He. simpl. lia.
      * destruct r3; [lia|]. low_byte He. rewrite andb_false_r. simpl. lia.
  - destruct (negb (is_high a)); [lia|].
    destruct (Utf8.in_range 194 223 a).
    + destruct (Utf8.in_range 128 191 b); lia.
    + destruct (Utf8.in_range 224 239 a).
      * low_byte He. rewrite andb_false_r. lia.
      * destruct rest; [lia|]. low_byte He. rewrite andb_false_r. simpl. lia.
  - destruct (negb (is_high a)); [lia|].
    destruct (Utf8.in_range 194 223 a).
    + destruct (Utf8.in_range 128 191 b); lia.
    + destruct (Utf8.in_range 224 239 a).
      * destruct (_ && _); lia.
      * low_byte He. rewrite andb_false_r. lia.
  - destruct (negb (is_high a)); [lia|].
    destruct (Utf8.in_range 194 223 a).
    + destruct (Utf8.in_range 128 191 b); lia.
    + destruct (Utf8.in_range 224 239 a).
      * destruct (_ && _); lia.
      * destruct (_ && _); lia.
Qed.

Lemma drop_split n s :
  exists p, s = p +:+ Fmt.drop n s
            /\ ((n <= String.length s)%nat -> String.length p = n).
Proof.
  revert s. induction n as [|n IH]; intros s.
  - exists "". split; [now destruct s|reflexivity].
  - destruct s as [|a s]; [exists ""; split; [reflexivity|simpl; lia]|].
    destruct (IH s) as (p & Hp & Hl).
    exists (String a p). split; [simpl; now rewrite app_cons, <- Hp|].
    simpl. intros H. rewrite Hl; lia.
Qed.

Lemma drop_app_le n (p x : string) :
  (n <= String.length p)%nat -> Fmt.drop n (p +:+ x) = Fmt.drop n p +:+ x.
Proof.
  revert p. induction n as [|n IH]; intros p H.
  - now destruct p, x.
  - destruct p as [|a p]; [simpl in H; lia|].
    rewrite app_cons. simpl. apply IH. simpl in H. lia.
Qed.

(** *** The leftmost match *)

Lemma search_here fuel r s s' c :
  Regexp.match_here r s = Some (s', c) ->
  Regexp.search fuel r s = Some (s, s', c).
Proof. intros H. destruct fuel; simpl; now rewrite H. Qed.

(** When no match starts inside [pre], and the text after it starts with a
    low byte and a match, the search finds that match. *)
Lemma search_skip r rest e rest' s' c :
  rest = String e rest' -> is_high e = false ->
  Regexp.match_here r rest = Some (s', c) ->
  forall pre,
    (forall p1 p2, pre = p1 +:+ p2 -> p2 <> "" ->
       Regexp.match_here r (p2 +:+ rest) = None) ->
    forall fuel, (String.length pre <= fuel)%nat ->
      Regexp.search fuel r (pre +:+ rest) = Some (rest, s', c).
Proof.
  intros Hrest He Hm pre.
  induction pre as [pre IH] using string_len_ind. intros Hno fuel Hf.
  destruct pre as [|a pre'].
  { rewrite app_nil_l. now apply search_here. }
  destruct fuel as [|fuel]; [simpl in Hf; lia|].
  cbn [Regexp.search].
  rewrite (Hno "" (String a pre')) by (try reflexivity; discriminate).
  rewrite app_cons. rewrite <- (app_cons a pre' rest).
  set (pre := String a pre') in *.
  pose proof (rune_width_pos (pre +:+ rest)) as Hw1.
  assert (Hw2 : (Utf8.rune_width (pre +:+ rest) <= String.length pre)%nat).
  { rewrite Hrest. apply rune_width_app_low; [discriminate|exact He]. }
  rewrite drop_app_le by exact Hw2.
  destruct (drop_split (Utf8.rune_width (pre +:+ rest)) pre) as (p & Hp & Hl).
  specialize (Hl Hw2).
  assert (Hlen : (String.length (Fmt.drop (Utf8.rune_width (pre +:+ rest)) pre)
                  < String.length pre)%nat).
  { pose proof (f_equal String.length Hp) as Hlp.
    rewrite length_app in Hlp. lia. }
  apply IH.
  - exact Hlen.
  - intros p1 p2 Heq Hne. apply (Hno (p +:+ p1) p2); [|exact Hne].
    rewrite Hp at 1. rewrite Heq. now rewrite app_assoc.
  - subst pre. cbn [String.length] in Hf, Hlen. lia.
Qed.

(** *** Paths without [whatsnew-] in their directory *)

Lemma app_eq_app (x y p r : string) :
  x +:+ y = p +:+ r ->
  (exists z, x = p +:+ z /\ r = z +:+ y)
  \/ (exists z, p = x +:+ z /\ y = z +:+ r).
Proof.
  revert p. induction x as [|a x IH]; intros p H.
  - right. exists p. now rewrite !app_nil_l in *.
  - destruct p as [|b p].
    + left. exists (String a x). now rewrite !app_nil_l in *.
    + rewrite !app_cons in H. inversion H; subst.
      destruct (IH p) as [(z & -> & ->)|(z & -> & ->)]; [assumption|..];
        [left|right]; exists z; now rewrite ?app_cons.
Qed.

Lemma whatsnew_occurs_app_r x y :
  whatsnew_occurs (x +:+ y) = false -> whatsnew_occurs y = false.
Proof.
  induction x as [|a x IH]; [now rewrite app_nil_l|].
  rewrite app_cons. cbn [whatsnew_occurs].
  intros [_ H]%orb_false_elim. auto.
Qed.

Lemma whatsnew_occurs_starts s : whatsnew_occurs s = false -> locale_starts s = false.
Proof. destruct s; cbn [whatsnew_occurs]; now intros [H _]%orb_false_elim. Qed.

Lemma app_snoc_inv (p1 p2 d : string) a :
  p1 +:+ p2 = d +:+ String a "" -> p2 <> "" -> exists q, p2 = q +:+ String a "".
Proof.
  intros H Hne. apply app_eq_app in H as [(z & -> & Hz)|(z & -> & Hz)].
  - destruct z as [|b z].
    + rewrite app_nil_l in Hz. now exists "".
    + destruct z; rewrite ?app_cons, ?app_nil_l in Hz; [|discriminate Hz].
      inversion Hz. congruence.
  - now exists z.
Qed.

(** A text that ends with the separator and starts no locale match starts
    none when a file name follows it. *)
Lemma locale_starts_dir q y :
  locale_starts (q +:+ "/") = false ->
  locale_starts ((q +:+ "/") +:+ y) = false.
Proof.
  intros H. destruct (locale_starts ((q +:+ "/") +:+ y)) eqn:E; [|reflexivity].
  unfold locale_starts in E. apply andb_true_iff in E as [Ep Ea].
  apply prefix_app in Ep as [r Hr].
  apply app_eq_app in Hr as [(z & Hz & ->)|(z & Hz & _)].
  - destruct z as [|c z].
    + rewrite app_nil_r in Hz. apply (f_equal (has_byte "/")) in Hz.
      rewrite has_byte_app in Hz. simpl in Hz. rewrite orb_true_r in Hz.
      discriminate Hz.
    + rewrite <- H. unfold locale_starts. rewrite Hz in *.
      change 9%nat with (String.length "whatsnew-") in *.
      rewrite app_assoc, drop_app in Ea. rewrite drop_app. rewrite app_cons in Ea.
      rewrite Ea.
      replace (String.prefix "whatsnew-" ("whatsnew-" +:+ String c z)) with true
        by (symmetry; apply prefix_app; eauto).
      reflexivity.
  - apply (f_equal (has_byte "/")) in Hz.
    rewrite !has_byte_app in Hz. simpl in Hz. rewrite orb_true_r in Hz.
    discriminate Hz.
Qed.

(** The locale of a file [whatsnew-<tag>] whose directory holds no
    [whatsnew-] followed by a letter or digit is [<tag>]. *)
Lemma FindStringSubmatch_locale pre tag :
  dir_prefix pre -> whatsnew_occurs pre = false -> locale_tag tag = true ->
  Regexp.FindStringSubmatch whatsnewPattern 3 (pre +:+ "whatsnew-" +:+ tag)
  = ["whatsnew-" +:+ tag; tag; tag; ""].
Proof.
  intros Hd Ho Ht. unfold Regexp.FindStringSubmatch.
  erewrite (search_skip whatsnewPattern ("whatsnew-" +:+ tag) "w"
              ("hatsnew-" +:+ tag));
    [| reflexivity | reflexivity | now apply match_here_tag | | ].
  - cbn -[Regexp.consumed]. now rewrite consumed_all.
  - intros p1 p2 Heq Hne. apply match_here_none.
    destruct Hd as [->|[d ->]].
    + destruct p1, p2; try discriminate Heq. congruence.
    + symmetry in Heq. destruct (app_snoc_inv _ _ _ _ Heq Hne) as [q ->].
      apply locale_starts_dir. apply whatsnew_occurs_starts.
      rewrite <- Heq in Ho. now apply whatsnew_occurs_app_r in Ho.
  - rewrite length_app. lia.
Qed.

(** ** Reading the release notes *)

Lemma matched_locale pre tag :
  dir_prefix pre -> whatsnew_occurs pre = false -> locale_tag tag = true ->
  matched (whatsnewPath pre tag) = true
  /\ nth 1 (Regexp.FindStringSubmatch whatsnewPattern 3 (whatsnewPath pre tag)) ""
     = tag.
Proof.
  intros Hd Ho Ht. unfold matched, whatsnewPath.
  rewrite FindStringSubmatch_locale by assumption. split; reflexivity.
Qed.

(** Files named by locale tags, in a directory without [whatsnew-]: each
    yields its tag as key. *)
Lemma readRecentChanges_locales os pre entries :
  dir_prefix pre -> whatsnew_occurs pre = false ->
  Forall (fun e => locale_tag (fst e) = true) entries ->
  (forall tag content, In (tag, content) entries ->
     os_ReadStringFromFile os (whatsnewPath pre tag) = Ok content) ->
  forall m,
    readRecentChanges os (map (fun e => whatsnewPath pre (fst e)) entries) m
    = (addNotes entries m, None).
Proof.
  intros Hd Ho Ht. induction Ht as [|[tag content] entries Htag _ IH];
    intros Hread m; [reflexivity|].
  cbn [map readRecentChanges fst].
  destruct (matched_locale pre tag Hd Ho Htag) as [Hm Hl].
  unfold matched in Hm. rewrite Hm, Hl.
  rewrite (Hread tag content) by now left.
  rewrite IH; [reflexivity|].
  intros t c Hin. apply Hread. now right.
Qed.

(** An error of the loop is the error of reading a matched path, and comes
    with the empty map. *)
Lemma readRecentChanges_error os paths :
  forall m m' e,
    readRecentChanges os paths m = (m', Some e) ->
    m' = ∅
    /\ exists p, In p paths /\ matched p = true
                 /\ os_ReadStringFromFile os p = Err e.
Proof.
  induction paths as [|p paths IH]; intros m m' e H; [discriminate H|].
  cbn [readRecentChanges] in H.
  destruct (2 <=? length _)%nat eqn:Em.
  - destruct (os_ReadStringFromFile os p) as [content|err] eqn:Er.
    + apply IH in H as (-> & q & Hq & Hm & Hr).
      split; [reflexivity|]. exists q. auto using in_cons.
    + inversion H; subst. split; [reflexivity|].
      exists p. repeat split; auto using in_eq.
  - apply IH in H as (-> & q & Hq & Hm & Hr).
    split; [reflexivity|]. exists q. auto using in_cons.
Qed.

(** A matched path that cannot be read makes the loop fail. *)
Lemma readRecentChanges_fails os paths p e :
  In p paths -> matched p = true -> os_ReadStringFromFile os p = Err e ->
  forall m, exists e', readRecentChanges os paths m = (∅, Some e').
Proof.
  induction paths as [|q paths IH]; intros Hin Hm Hr m; [destruct Hin|].
  cbn [readRecentChanges].
  destruct Hin as [->|Hin].
  - unfold matched in Hm. rewrite Hm, Hr. eauto.
  - destruct (2 <=? length _)%nat.
    + destruct (os_ReadStringFromFile os q); eauto.
    + eauto.
Qed.

(** When the loop ends without an error, the keys it was given are kept,
    and the locale of every matched path is a key. *)
Lemma readRecentChanges_keys os paths :
  forall m m',
    readRecentChanges os paths m = (m', None) ->
    (forall k, is_Some (m !! k) -> is_Some (m' !! k))
    /\ (forall p, In p paths -> matched p = true ->
          is_Some
            (m' !! nth 1 (Regexp.FindStringSubmatch whatsnewPattern 3 p) "")).
Proof.
  induction paths as [|q paths IH]; intros m m' H.
  - inversion H; subst. split; [auto|]. intros p [].
  - cbn [readRecentChanges] in H.
    destruct (2 <=? length _)%nat eqn:Em.
    + destruct (os_ReadStringFromFile os q) as [content|err]; [|discriminate H].
      apply IH in H as [Hk Hp]. split.
      * intros k Hk'. apply Hk.
        destruct (decide (nth 1 (Regexp.FindStringSubmatch whatsnewPattern 3 q) "" = k))
          as [->|Hne].
        -- rewrite lookup_insert_eq. eauto.
        -- now rewrite lookup_insert_ne.
      * intros p [->|Hin] Hm; [|now apply Hp].
        apply Hk. rewrite lookup_insert_eq. eauto.
    + apply IH in H as [Hk Hp]. split; [exact Hk|].
      intros p [->|Hin] Hm; [|now apply Hp].
      unfold matched in Hm. congruence.
Qed.

(** C8. When no file matches [whatsnew-*] (the glob yields no path),
    [readLocalisedRecentChanges] returns the empty map and no error.  When
    reading a matched file fails, it returns the empty map together with an
    error, which is the error of reading a matched file; whenever it returns
    an error, the map is empty. *)
Theorem readLocalisedRecentChanges_none_or_error os recentChangesDir :
  (os_Glob os (Filepath.Join recentChangesDir "whatsnew-*") = Ok [] ->
   readLocalisedRecentChanges os recentChangesDir = (∅, None))
  /\ (forall paths p e,
        os_Glob os (Filepath.Join recentChangesDir "whatsnew-*") = Ok paths ->
        In p paths -> matched p = true ->
        os_ReadStringFromFile os p = Err e ->
        exists e',
          readLocalisedRecentChanges os recentChangesDir = (∅, Some e')
          /\ exists p', In p' paths /\ matched p' = true
                        /\ os_ReadStringFromFile os p' = Err e')
  /\ (forall m e,
        readLocalisedRecentChanges os recentChangesDir = (m, Some e) -> m = ∅).
Proof.
  unfold readLocalisedRecentChanges. split; [|split].
  - intros ->. reflexivity.
  - intros paths p e -> Hin Hm Hr.
    destruct (readRecentChanges_fails os paths p e Hin Hm Hr ∅) as [e' He'].
    exists e'. split; [exact He'|].
    now apply readRecentChanges_error in He' as [_ H].
  - intros m e.
    destruct (os_Glob os _) as [paths|err].
    + intros H. now apply readRecentChanges_error in H as [-> _].
    + intros H. now inversion H.
Qed.

Lemma readLocalisedRecentChanges_none_or_error_witness :
  exists e',
    readLocalisedRecentChanges
      (exampleOS "notes/whatsnew-*" ["notes/whatsnew-en-US"; "notes/whatsnew-fr"]
         [("notes/whatsnew-en-US", "New")])
      "notes"
    = (∅, Some e')
    /\ exists p',
         In p' ["notes/whatsnew-en-US"; "notes/whatsnew-fr"]
         /\ matched p' = true
         /\ os_ReadStringFromFile
              (exampleOS "notes/whatsnew-*"
                 ["notes/whatsnew-en-US"; "notes/whatsnew-fr"]
                 [("notes/whatsnew-en-US", "New")]) p'
            = Err e'.
Proof.
  apply (proj1 (proj2 (readLocalisedRecentChanges_none_or_error
                         (exampleOS "notes/whatsnew-*"
                            ["notes/whatsnew-en-US"; "notes/whatsnew-fr"]
                            [("notes/whatsnew-en-US", "New")])
                         "notes"))
           ["notes/whatsnew-en-US"; "notes/whatsnew-fr"] "notes/whatsnew-fr"
           "open notes/whatsnew-fr: no such file or directory").
  - reflexivity.
  - right. left. reflexivity.
  - reflexivity.
  - reflexivity.
Defined.

(** A file [whatsnew-<tag>] whose tag is no locale tag does not yield the
    key [<tag>], also in a directory without [whatsnew-] in its path: the
    file [whatsnew-_draft] is skipped, and the file whose tag is [en-], a
    line feed and [US] yields the key [en-]. *)
Lemma readLocalisedRecentChanges_tag_without_locale :
  whatsnew_occurs "notes/" = false
  /\ readLocalisedRecentChanges
       (exampleOS "notes/whatsnew-*" ["notes/whatsnew-_draft"]
          [("notes/whatsnew-_draft", "Draft")])
       "notes"
     = (∅, None)
  /\ readLocalisedRecentChanges
       (exampleOS "notes/whatsnew-*"
          [whatsnewPath "notes/" ("en-" +:+ LF +:+ "US")]
          [(whatsnewPath "notes/" ("en-" +:+ LF +:+ "US"), "New")])
       "notes"
     = ({["en-" := "New"]}, None).
Proof. repeat split; vm_compute; reflexivity. Qed.

(** C10. The locale expression is matched against the whole
    globbed path, and the leftmost match is taken.  When the directory part
    of the globbed paths holds no [whatsnew-] followed by a letter or digit,
    each file [whatsnew-<tag>] whose tag is a locale tag (it starts with a
    letter or digit and holds no line feed) yields the key [<tag>]: with the
    content of the file when all the files are such, and as a key of the
    map whatever the other globbed paths are, when no read fails.  For the
    directory [whatsnew-x], which holds such an
    occurrence, the key of the file [whatsnew-en-US] is [x/whatsnew-en-US]:
    text of the directory path, not the locale tag of the file name. *)
Theorem readLocalisedRecentChanges_matches_full_path :
  (forall os recentChangesDir pre entries,
     dir_prefix pre -> whatsnew_occurs pre = false ->
     Forall (fun e => locale_tag (fst e) = true) entries ->
     os_Glob os (Filepath.Join recentChangesDir "whatsnew-*")
     = Ok (map (fun e => whatsnewPath pre (fst e)) entries) ->
     (forall tag content, In (tag, content) entries ->
        os_ReadStringFromFile os (whatsnewPath pre tag) = Ok content) ->
     readLocalisedRecentChanges os recentChangesDir = (addNotes entries ∅, None))
  /\ (forall os recentChangesDir pre paths tag m,
        dir_prefix pre -> whatsnew_occurs pre = false ->
        locale_tag tag = true ->
        os_Glob os (Filepath.Join recentChangesDir "whatsnew-*") = Ok paths ->
        In (whatsnewPath pre tag) paths ->
        readLocalisedRecentChanges os recentChangesDir = (m, None) ->
        is_Some (m !! tag))
  /\ whatsnew_occurs "whatsnew-x/" = true
  /\ Regexp.FindStringSubmatch whatsnewPattern 3 "whatsnew-x/whatsnew-en-US"
     = ["whatsnew-x/whatsnew-en-US"; "x/whatsnew-en-US"; "x/whatsnew-en-US"; ""]
  /\ readLocalisedRecentChanges
       (exampleOS "whatsnew-x/whatsnew-*" ["whatsnew-x/whatsnew-en-US"]
          [("whatsnew-x/whatsnew-en-US", "New")])
       "whatsnew-x"
     = ({["x/whatsnew-en-US" := "New"]}, None).
Proof.
  split; [|split; [|repeat split; vm_compute; reflexivity]].
  - intros os recentChangesDir pre entries Hd Ho Ht Hg Hr.
    unfold readLocalisedRecentChanges. rewrite Hg.
    now apply readRecentChanges_locales.
  - intros os recentChangesDir pre paths tag m Hd Ho Ht Hg Hin.
    unfold readLocalisedRecentChanges. rewrite Hg. intros H.
    apply readRecentChanges_keys in H as [_ Hp].
    destruct (matched_locale pre tag Hd Ho Ht) as [Hm Hl].
    rewrite <- Hl. now apply Hp.
Qed.

Lemma readLocalisedRecentChanges_matches_full_path_witness :
  readLocalisedRecentChanges
    (exampleOS "release/notes/whatsnew-*"
       ["release/notes/whatsnew-en-US"; "release/notes/whatsnew-fr"]
       [("release/notes/whatsnew-en-US", "New"); ("release/notes/whatsnew-fr", "Nouveau")])
    "release/notes/"
  = (addNotes [("en-US", "New"); ("fr", "Nouveau")] ∅, None).
Proof.
  apply (proj1 readLocalisedRecentChanges_matches_full_path
           _ "release/notes/" "release/notes/" [("en-US", "New"); ("fr", "Nouveau")]).
  - right. exists "release/notes". reflexivity.
  - reflexivity.
  - repeat constructor.
  - reflexivity.
  - intros tag content [H|[H|[]]]; inversion H; subst; reflexivity.
Defined.

(** Files named by locale tags in a directory without [whatsnew-] in its
    path: the keys are the tags of [whatsnew-en-US] and [whatsnew-fr]. *)
Lemma readLocalisedRecentChanges_two_locales os recentChangesDir pre en fr :
  dir_prefix pre -> whatsnew_occurs pre = false ->
  os_Glob os (Filepath.Join recentChangesDir "whatsnew-*")
  = Ok [whatsnewPath pre "en-US"; whatsnewPath pre "fr"] ->
  os_ReadStringFromFile os (whatsnewPath pre "en-US") = Ok en ->
  os_ReadStringFromFile os (whatsnewPath pre "fr") = Ok fr ->
  readLocalisedRecentChanges os recentChangesDir
  = (<["fr" := fr]> (<["en-US" := en]> ∅), None).
Proof.
  intros Hd Ho Hg Hen Hfr. unfold readLocalisedRecentChanges. rewrite Hg.
  apply (readRecentChanges_locales os pre [("en-US", en); ("fr", fr)] Hd Ho).
  - repeat constructor.
  - intros tag content [H|[H|[]]]; inversion H; subst; assumption.
Qed.

(** C7. For the directory [whatsnew-x] that holds exactly the files
    [whatsnew-en-US], [whatsnew-fr] and [notes.txt] (the glob yields the
    first two), the keys of the map of [readLocalisedRecentChanges] are
    [x/whatsnew-en-US] and [x/whatsnew-fr], where [en-US] and [fr] were to
    be the keys.  They are the keys whenever the directory part of the
    globbed paths holds no [whatsnew-] followed by a letter or digit. *)
Theorem readLocalisedRecentChanges_directory_named_whatsnew :
  Filepath.Join "whatsnew-x" "whatsnew-*" = "whatsnew-x/whatsnew-*"
  /\ readLocalisedRecentChanges
       (exampleOS "whatsnew-x/whatsnew-*"
          ["whatsnew-x/whatsnew-en-US"; "whatsnew-x/whatsnew-fr"]
          [("whatsnew-x/whatsnew-en-US", "New"); ("whatsnew-x/whatsnew-fr", "Nouveau");
           ("whatsnew-x/notes.txt", "notes")])
       "whatsnew-x"
     = (<["x/whatsnew-fr" := "Nouveau"]> (<["x/whatsnew-en-US" := "New"]> ∅), None)
  /\ forall os recentChangesDir pre en fr,
       dir_prefix pre -> whatsnew_occurs pre = false ->
       os_Glob os (Filepath.Join recentChangesDir "whatsnew-*")
       = Ok [whatsnewPath pre "en-US"; whatsnewPath pre "fr"] ->
       os_ReadStringFromFile os (whatsnewPath pre "en-US") = Ok en ->
       os_ReadStringFromFile os (whatsnewPath pre "fr") = Ok fr ->
       readLocalisedRecentChanges os recentChangesDir
       = (<["fr" := fr]> (<["en-US" := en]> ∅), None).
Proof.
  split; [vm_compute; reflexivity|]. split; [vm_compute; reflexivity|].
  exact readLocalisedRecentChanges_two_locales.
Qed.

(** * Further properties of the step *)

(** ** What a match can be *)

Lemma in_range_not_LF lo hi b :
  (10 < lo)%N -> Utf8.in_range lo hi b = true -> Ascii.eqb b "010" = false.
Proof.
  unfold Utf8.in_range. intros Hlo [H _]%andb_true_iff. apply N.leb_le in H.
  destruct (Ascii.eqb_spec b "010") as [->|]; [|reflexivity].
  cbn in H. lia.
Qed.

(** The rune that [.] takes holds no line feed. *)
Lemma rune_no_LF a s :
  is_byte 10 a = false ->
  exists u,
    String a s = u +:+ Fmt.drop (Utf8.rune_width (String a s)) (String a s)
    /\ has_byte "010" u = false.
Proof.
  rewrite is_byte_LF. intros Ha.
  assert (exists u, String a s = u +:+ Fmt.drop 1 (String a s)
                    /\ has_byte "010" u = false) as H1.
  { exists (String a ""). split; [reflexivity|]. cbn [has_byte]. now rewrite Ha. }
  unfold Utf8.rune_width, Utf8.rune_size.
  destruct (negb (is_high a)); [exact H1|].
  destruct s as [|b r2]; [exact H1|].
  destruct (Utf8.in_range 194 223 a).
  { destruct (Utf8.in_range 128 191 b) eqn:Hb; [|exact H1].
    exists (String a (String b "")). split; [reflexivity|].
    cbn [has_byte]. rewrite Ha.
    apply in_range_not_LF in Hb; [|lia]. rewrite Hb. reflexivity. }
  destruct r2 as [|c r3]; [exact H1|].
  destruct (Utf8.in_range 224 239 a).
  { destruct (Utf8.in_range _ _ b) eqn:Hb; [|exact H1].
    destruct (Utf8.in_range 128 191 c) eqn:Hc; [|exact H1].
    exists (String a (String b (String c ""))). split; [reflexivity|].
    cbn [has_byte]. rewrite Ha.
    apply in_range_not_LF in Hb; [|destruct (is_byte 224 a); lia]. rewrite Hb.
    apply in_range_not_LF in Hc; [|lia]. rewrite Hc. reflexivity. }
  destruct r3 as [|d r4]; [exact H1|].
  destruct (Utf8.in_range 240 244 a); [|exact H1].
  destruct (Utf8.in_range _ _ b) eqn:Hb; [|exact H1].
  destruct (Utf8.in_range 128 191 c) eqn:Hc; [|exact H1].
  destruct (Utf8.in_range 128 191 d) eqn:Hd; [|exact H1].
  exists (String a (String b (String c (String d "")))). split; [reflexivity|].
  cbn [has_byte]. rewrite Ha.
  apply in_range_not_LF in Hb; [|destruct (is_byte 240 a); lia]. rewrite Hb.
  apply in_range_not_LF in Hc; [|lia]. rewrite Hc.
  apply in_range_not_LF in Hd; [|lia]. rewrite Hd. reflexivity.
Qed.


Lemma star_loop_O {X} step (k : string -> Regexp.caps -> option X) s c :
  Regexp.star_loop step k 0 s c = k s c.
Proof. reflexivity. Qed.

Lemma star_loop_S {X} step (k : string -> Regexp.caps -> option X) n s c :
  Regexp.star_loop step k (S n) s c
  = match step s c (fun s' c' =>
            if (String.length s' <? String.length s)%nat
            then Regexp.star_loop step k n s' c' else None) with
    | Some x => Some x
    | None => k s c
    end.
Proof. reflexivity. Qed.

Lemma star_loop_forward {X} step (k : string -> Regexp.caps -> option X) :
  forward step ->
  forall n s c x, Regexp.star_loop step k n s c = Some x ->
    exists u s' c',
      s = u +:+ s' /\ has_byte "010" u = false /\ k s' c' = Some x.
Proof.
  intros Hstep. induction n as [|n IH]; intros s c x H.
  - rewrite star_loop_O in H. exists "", s, c. now rewrite app_nil_l.
  - rewrite star_loop_S in H.
    destruct (step s c _) as [y|] eqn:E.
    + inversion H; subst y. apply Hstep in E as (u & s1 & c1 & -> & Hu & E).
      destruct (_ <? _)%nat; [|discriminate].
      apply IH in E as (u2 & s2 & c2 & -> & Hu2 & E).
      exists (u +:+ u2), s2, c2. rewrite app_assoc, has_byte_app, Hu, Hu2. auto.
    + exists "", s, c. now rewrite app_nil_l.
Qed.

Lemma run_forward {X} r : lf_free r = true -> forward (X:=X) (Regexp.run r).
Proof.
  induction r as [l|p| | |r1 IH1 r2 IH2|r1 IH1 r2 IH2|r IH|r IH|n r IH];
    cbn [lf_free]; intros Hr s c k x H.
  - rewrite run_Lit in H. destruct (String.prefix l s) eqn:E; [|discriminate].
    apply prefix_app in E as [t ->]. rewrite drop_app in H.
    apply negb_true_iff in Hr. eauto 6.
  - destruct s as [|a s]; [discriminate|]. rewrite run_Class in H.
    destruct (p a) eqn:Ha; [|discriminate].
    exists (String a ""), s, c. repeat split; auto.
    cbn [has_byte]. destruct (Ascii.eqb_spec a "010") as [->|]; [|reflexivity].
    rewrite Ha in Hr. discriminate.
  - destruct s as [|a s]; [discriminate|]. cbn [Regexp.run] in H.
    destruct (is_byte 10 a) eqn:Ha; [discriminate|].
    destruct (rune_no_LF a s Ha) as (u & Hu & Hlf).
    exists u, (Fmt.drop (Utf8.rune_width (String a s)) (String a s)), c. auto.
  - destruct s; [|discriminate]. exists "", "", c. auto.
  - apply andb_true_iff in Hr as [Hr1 Hr2].
    rewrite run_Seq in H. apply (IH1 Hr1) in H as (u1 & s1 & c1 & -> & Hu1 & H).
    apply (IH2 Hr2) in H as (u2 & s2 & c2 & -> & Hu2 & H).
    exists (u1 +:+ u2), s2, c2. rewrite app_assoc, has_byte_app, Hu1, Hu2. auto.
  - apply andb_true_iff in Hr as [Hr1 Hr2].
    cbn [Regexp.run] in H. destruct (Regexp.run r1 s c k) eqn:E.
    + inversion H; subst. now apply (IH1 Hr1) in E.
    + now apply (IH2 Hr2) in H.
  - rewrite run_Star in H. eapply star_loop_forward; eauto.
  - rewrite run_Plus in H. apply (IH Hr) in H as (u1 & s1 & c1 & -> & Hu1 & H).
    apply (star_loop_forward _ _ (IH Hr)) in H as (u2 & s2 & c2 & -> & Hu2 & H).
    exists (u1 +:+ u2), s2, c2. rewrite app_assoc, has_byte_app, Hu1, Hu2. auto.
  - rewrite run_Group in H. apply (IH Hr) in H as (u1 & s1 & c1 & -> & Hu1 & H).
    eauto 6.
Qed.

Lemma substring_app (u s : string) : String.substring 0 (String.length u) (u +:+ s) = u.
Proof. induction u as [|a u IH]; [now destruct s|]. rewrite app_cons. simpl. now rewrite IH. Qed.

Lemma consumed_app (u s : string) : Regexp.consumed (u +:+ s) s = u.
Proof.
  unfold Regexp.consumed. rewrite length_app.
  replace (String.length u + String.length s - String.length s)%nat
    with (String.length u) by lia.
  apply substring_app.
Qed.

(** A match of the pattern at the head of a text: [whatsnew-], a letter or
    digit, and more, without a line feed; the locale is what the match holds
    after [whatsnew-]. *)
Lemma match_here_inv s s' c :
  Regexp.match_here whatsnewPattern s = Some (s', c) ->
  exists a u,
    is_alnum a = true /\ has_byte "010" u = false
    /\ s = "whatsnew-" +:+ String a u +:+ s'
    /\ Regexp.cap_get 1 c = String a u.
Proof.
  unfold Regexp.match_here, whatsnewPattern. rewrite run_Seq, run_Lit.
  destruct (String.prefix "whatsnew-" s) eqn:E; [|discriminate].
  apply prefix_app in E as [t ->]. rewrite drop_app.
  rewrite run_Group, run_Plus, run_Group, run_Seq.
  destruct t as [|a t]; [discriminate|]. rewrite run_Class.
  destruct (is_alnum a) eqn:Ha; [|discriminate].
  intros H. apply run_forward in H as (u1 & s1 & c1 & -> & Hu1 & H);
    [|reflexivity].
  eapply star_loop_forward in H; [|apply run_forward; reflexivity].
  destruct H as (u2 & s2 & c2 & -> & Hu2 & H).
  inversion H; subst. exists a, (u1 +:+ u2). split; [exact Ha|].
  split; [rewrite has_byte_app, Hu1, Hu2; reflexivity|].
  rewrite <- app_assoc. split; [reflexivity|].
  rewrite <- app_cons. cbn -[Regexp.consumed]. apply consumed_app.
Qed.

(** The leftmost match starts at a place of the text. *)
Lemma search_inv r : forall fuel s s0 s' c,
  Regexp.search fuel r s = Some (s0, s', c) ->
  (exists x, s = x +:+ s0) /\ Regexp.match_here r s0 = Some (s', c).
Proof.
  induction fuel as [|fuel IH]; intros s s0 s' c H; cbn [Regexp.search] in H.
  - destruct (Regexp.match_here r s) as [[t d]|] eqn:E.
    + inversion H; subst. split; [exists ""; now rewrite app_nil_l|exact E].
    + discriminate.
  - destruct (Regexp.match_here r s) as [[t d]|] eqn:E.
    + inversion H; subst. split; [exists ""; now rewrite app_nil_l|exact E].
    + destruct s as [|a s]; [discriminate|].
      apply IH in H as [[x Hx] H]. split; [|exact H].
      destruct (drop_split (Utf8.rune_width (String a s)) (String a s)) as (p & Hp & _).
      exists (p +:+ x). rewrite app_assoc, <- Hx. exact Hp.
Qed.

Lemma match_here_consumed s s' c :
  Regexp.match_here whatsnewPattern s = Some (s', c) ->
  Regexp.consumed s s' = "whatsnew-" +:+ Regexp.cap_get 1 c.
Proof.
  intros H. apply match_here_inv in H as (a & u & _ & _ & -> & ->).
  rewrite <- app_assoc. apply consumed_app.
Qed.

(** What [FindStringSubmatch] finds in a path: nothing, or the first place
    at which [whatsnew-] and a letter or digit stand, with the locale that
    follows [whatsnew-] there. *)
Lemma FindStringSubmatch_cases p :
  (Regexp.FindStringSubmatch whatsnewPattern 3 p = [] /\ matched p = false)
  \/ (matched p = true
      /\ exists x a u y,
           is_alnum a = true /\ has_byte "010" u = false
           /\ p = x +:+ "whatsnew-" +:+ String a u +:+ y
           /\ language_of p = String a u).
Proof.
  unfold matched, language_of, Regexp.FindStringSubmatch.
  destruct (Regexp.search _ _ p) as [[[s0 s'] c]|] eqn:E; [right|left; auto].
  split; [reflexivity|].
  apply search_inv in E as [[x ->] H].
  apply match_here_inv in H as (a & u & Ha & Hu & -> & Hc).
  exists x, a, u, s'. auto.
Qed.

Lemma whatsnew_occurs_intro x y :
  locale_starts y = true -> whatsnew_occurs (x +:+ y) = true.
Proof.
  intros H. induction x as [|a x IH].
  - rewrite app_nil_l. destruct y; [discriminate H|].
    cbn [whatsnew_occurs]. now rewrite H.
  - rewrite app_cons. simpl. rewrite IH. apply orb_true_r.
Qed.

Lemma locale_starts_intro a t :
  is_alnum a = true -> locale_starts ("whatsnew-" +:+ String a t) = true.
Proof.
  intros Ha. unfold locale_starts. rewrite prefix_app_refl.
  change 9%nat with (String.length "whatsnew-"). now rewrite drop_app, Ha.
Qed.

Lemma search_none r : forall fuel s,
  (forall x y, s = x +:+ y -> Regexp.match_here r y = None) ->
  Regexp.search fuel r s = None.
Proof.
  induction fuel as [|fuel IH]; intros s H; cbn [Regexp.search];
    rewrite (H "" s) by (now rewrite app_nil_l).
  - reflexivity.
  - destruct s as [|a s]; [reflexivity|]. apply IH. intros x y Hxy.
    destruct (drop_split (Utf8.rune_width (String a s)) (String a s)) as (p & Hp & _).
    apply (H (p +:+ x)). rewrite app_assoc, <- Hxy. exact Hp.
Qed.

(** The guard of the loop holds only for a path in which [whatsnew-] with
    a letter or digit after it occurs. *)
Lemma matched_occurs p : matched p = true -> whatsnew_occurs p = true.
Proof.
  intros H.
  destruct (FindStringSubmatch_cases p)
    as [[_ H']|[_ (x & a & u & y & Ha & _ & Hp & _)]]; [congruence|].
  rewrite Hp. apply whatsnew_occurs_intro.
  rewrite app_cons. now apply locale_starts_intro.
Qed.

(** ** The loop over the globbed paths *)

Lemma readRecentChanges_cons os p rest m :
  readRecentChanges os (p :: rest) m
  = if matched p then
      match os_ReadStringFromFile os p with
      | Err err => (∅, Some err)
      | Ok content => readRecentChanges os rest (<[language_of p := content]> m)
      end
    else readRecentChanges os rest m.
Proof. reflexivity. Qed.

(** Where a note of the result comes from. *)
Lemma readRecentChanges_lookup os paths : forall m m' k v,
  readRecentChanges os paths m = (m', None) -> m' !! k = Some v ->
  m !! k = Some v
  \/ exists p, In p paths /\ matched p = true /\ language_of p = k
               /\ os_ReadStringFromFile os p = Ok v.
Proof.
  induction paths as [|p rest IH]; intros m m' k v H Hk.
  - inversion H; subst. now left.
  - rewrite readRecentChanges_cons in H.
    destruct (matched p) eqn:Hm.
    + destruct (os_ReadStringFromFile os p) as [content|err] eqn:Hr; [|discriminate].
      destruct (IH _ _ _ _ H Hk) as [Hi|(q & Hq & ?)].
      * apply lookup_insert_Some in Hi as [[<- <-]|[_ Hi]]; [|now left].
        right. exists p. repeat split; auto. now left.
      * right. exists q. split; [now right|assumption].
    + destruct (IH _ _ _ _ H Hk) as [Hi|(q & Hq & ?)]; [now left|].
      right. exists q. split; [now right|assumption].
Qed.

(** Paths of other languages leave the note of a language as it is. *)
Lemma readRecentChanges_untouched os k paths : forall m m',
  readRecentChanges os paths m = (m', None) ->
  (forall q, In q paths -> matched q = true -> language_of q <> k) ->
  m' !! k = m !! k.
Proof.
  induction paths as [|p rest IH]; intros m m' H Hq.
  - now inversion H.
  - rewrite readRecentChanges_cons in H.
    destruct (matched p) eqn:Hm.
    + destruct (os_ReadStringFromFile os p) as [content|err]; [|discriminate].
      rewrite (IH _ _ H) by (intros q Hin; apply Hq; now right).
      apply lookup_insert_ne. apply Hq; [now left|exact Hm].
    + apply (IH _ _ H). intros q Hin; apply Hq; now right.
Qed.

Lemma readRecentChanges_last os k p after : forall before m m',
  readRecentChanges os (before ++ p :: after) m = (m', None) ->
  matched p = true -> language_of p = k ->
  (forall q, In q after -> matched q = true -> language_of q <> k) ->
  exists content, os_ReadStringFromFile os p = Ok content /\ m' !! k = Some content.
Proof.
  induction before as [|b before IH]; intros m m' H Hm Hk Hafter.
  - cbn [app] in H. rewrite readRecentChanges_cons, Hm in H.
    destruct (os_ReadStringFromFile os p) as [content|err]; [|discriminate].
    exists content. split; [reflexivity|].
    rewrite (readRecentChanges_untouched _ _ _ _ _ H Hafter), Hk.
    apply lookup_insert_eq.
  - cbn [app] in H. rewrite readRecentChanges_cons in H.
    destruct (matched b).
    + destruct (os_ReadStringFromFile os b) as [content|err]; [|discriminate].
      eapply IH; eauto.
    + eapply IH; eauto.
Qed.

(** The loop stops at the first path that matches and cannot be read. *)
Lemma readRecentChanges_first_error os paths e : forall m m',
  readRecentChanges os paths m = (m', Some e)
  <-> m' = ∅
      /\ exists before p after,
           paths = before ++ p :: after
           /\ matched p = true /\ os_ReadStringFromFile os p = Err e
           /\ forall q, In q before -> matched q = true ->
                exists content, os_ReadStringFromFile os q = Ok content.
Proof.
  induction paths as [|p rest IH]; intros m m'.
  - split; [discriminate|]. intros (_ & [|? ?] & ? & ? & ? & _); discriminate.
  - rewrite readRecentChanges_cons. split.
    + destruct (matched p) eqn:Hm.
      * destruct (os_ReadStringFromFile os p) as [content|err] eqn:Hr.
        -- intros H. apply IH in H as (-> & before & q & after & -> & Hq & Hr' & Hb).
           split; [reflexivity|]. exists (p :: before), q, after.
           repeat split; auto. intros x [<-|Hx] Hx'; eauto.
        -- intros H. inversion H; subst. split; [reflexivity|].
           exists [], p, rest. repeat split; auto. intros q [].
      * intros H. apply IH in H as (-> & before & q & after & -> & Hq & Hr' & Hb).
        split; [reflexivity|]. exists (p :: before), q, after.
        repeat split; auto. intros x [<-|Hx] Hx'; [congruence|eauto].
    + intros (Hm' & before & q & after & Hp & Hq & Hr & Hb). subst m'.
      destruct before as [|b before]; cbn [app] in Hp; inversion Hp; subst.
      * now rewrite Hq, Hr.
      * assert (forall m0, readRecentChanges os (before ++ q :: after) m0
                           = (∅, Some e)) as Hall.
        { intros m0. apply IH. split; [reflexivity|]. exists before, q, after.
          repeat split; auto. intros x Hx; apply Hb; now right. }
        destruct (matched b) eqn:Hm; [|apply Hall].
        destruct (Hb b (or_introl eq_refl) Hm) as [content ->]. apply Hall.
Qed.

Lemma readRecentChanges_unmatched os paths m :
  (forall p, In p paths -> matched p = false) ->
  readRecentChanges os paths m = (m, None).
Proof.
  induction paths as [|p rest IH]; intros H; [reflexivity|].
  rewrite readRecentChanges_cons, (H p) by now left.
  apply IH. intros q Hq. apply H. now right.
Qed.

(** ** Reading the notes: further properties *)

(** X1. [readLocalisedRecentChanges]: every language of the map it returns
    comes from a globbed path whose file was read.  The language starts with
    a letter or a digit, it stands in that path right after [whatsnew-], and
    its note is the content of that file. *)
Theorem readLocalisedRecentChanges_language_origin
    os recentChangesDir m language content :
  readLocalisedRecentChanges os recentChangesDir = (m, None) ->
  m !! language = Some content ->
  exists paths p x a u y,
    os_Glob os (Filepath.Join recentChangesDir "whatsnew-*") = Ok paths
    /\ In p paths
    /\ os_ReadStringFromFile os p = Ok content
    /\ p = x +:+ "whatsnew-" +:+ language +:+ y
    /\ language = String a u /\ is_alnum a = true
    /\ has_byte "010" language = false.
Proof.
  unfold readLocalisedRecentChanges.
  destruct (os_Glob os _) as [paths|err]; [|discriminate].
  intros H Hk.
  destruct (readRecentChanges_lookup _ _ _ _ _ _ H Hk)
    as [Hi|(p & Hp & Hm & Hl & Hr)]; [now rewrite lookup_empty in Hi|].
  destruct (FindStringSubmatch_cases p)
    as [[_ Hm']|[_ (x & a & u & y & Ha & Hu & Hx & Hl')]]; [congruence|].
  exists paths, p, x, a, u, y. rewrite <- Hl, Hl'.
  repeat split; auto.
  cbn [has_byte]. rewrite Hu.
  destruct (Ascii.eqb_spec a "010") as [->|]; [discriminate Ha|reflexivity].
Qed.

Lemma readLocalisedRecentChanges_language_origin_witness :
  exists paths p x a u y,
    os_Glob
      (exampleOS "notes/whatsnew-*" ["notes/whatsnew-en-US"; "notes/whatsnew-fr"]
         [("notes/whatsnew-en-US", "New"); ("notes/whatsnew-fr", "Nouveau")])
      (Filepath.Join "notes" "whatsnew-*") = Ok paths
    /\ In p paths
    /\ os_ReadStringFromFile
         (exampleOS "notes/whatsnew-*" ["notes/whatsnew-en-US"; "notes/whatsnew-fr"]
            [("notes/whatsnew-en-US", "New"); ("notes/whatsnew-fr", "Nouveau")]) p
       = Ok "Nouveau"
    /\ p = x +:+ "whatsnew-" +:+ "fr" +:+ y
    /\ "fr" = String a u /\ is_alnum a = true
    /\ has_byte "010" "fr" = false.
Proof.
  apply (readLocalisedRecentChanges_language_origin
           (exampleOS "notes/whatsnew-*" ["notes/whatsnew-en-US"; "notes/whatsnew-fr"]
              [("notes/whatsnew-en-US", "New"); ("notes/whatsnew-fr", "Nouveau")])
           "notes" (<["fr" := "Nouveau"]> (<["en-US" := "New"]> ∅)) "fr" "Nouveau").
  - vm_compute; reflexivity.
  - vm_compute; reflexivity.
Defined.

(** X2. [readLocalisedRecentChanges]: the note of a language is the content
    of the last globbed path that yields this language; a path that
    matches and is followed by no other path of its language has its
    content in the map. *)
Theorem readLocalisedRecentChanges_last_path_wins
    os recentChangesDir before p after m :
  os_Glob os (Filepath.Join recentChangesDir "whatsnew-*")
  = Ok (before ++ p :: after) ->
  readLocalisedRecentChanges os recentChangesDir = (m, None) ->
  matched p = true ->
  (forall q, In q after -> matched q = true -> language_of q <> language_of p) ->
  exists content,
    os_ReadStringFromFile os p = Ok content
    /\ m !! language_of p = Some content.
Proof.
  intros Hg. unfold readLocalisedRecentChanges. rewrite Hg. intros H Hm Hafter.
  exact (readRecentChanges_last _ _ _ _ _ _ _ H Hm eq_refl Hafter).
Qed.

Lemma readLocalisedRecentChanges_last_path_wins_witness :
  exists content,
    os_ReadStringFromFile
      (exampleOS "*/whatsnew-*" ["free/whatsnew-en-US"; "paid/whatsnew-en-US"]
         [("free/whatsnew-en-US", "Free"); ("paid/whatsnew-en-US", "Paid")])
      "paid/whatsnew-en-US"
    = Ok content
    /\ (<["en-US" := "Paid"]> ∅ : gmap string string)
       !! language_of "paid/whatsnew-en-US" = Some content.
Proof.
  apply (readLocalisedRecentChanges_last_path_wins
           (exampleOS "*/whatsnew-*" ["free/whatsnew-en-US"; "paid/whatsnew-en-US"]
              [("free/whatsnew-en-US", "Free"); ("paid/whatsnew-en-US", "Paid")])
           "*" ["free/whatsnew-en-US"] "paid/whatsnew-en-US" []).
  - reflexivity.
  - vm_compute; reflexivity.
  - reflexivity.
  - intros q [].
Defined.

(** X3. [readLocalisedRecentChanges] returns an error exactly when the glob
    fails, with the error of the glob, or when a globbed path that matches
    cannot be read, with the error of the first such path: the matching
    paths before it were read.  The map returned with an error is empty. *)
Theorem readLocalisedRecentChanges_error os recentChangesDir m e :
  readLocalisedRecentChanges os recentChangesDir = (m, Some e)
  <-> m = ∅
      /\ (os_Glob os (Filepath.Join recentChangesDir "whatsnew-*") = Err e
          \/ exists before p after,
               os_Glob os (Filepath.Join recentChangesDir "whatsnew-*")
               = Ok (before ++ p :: after)
               /\ matched p = true /\ os_ReadStringFromFile os p = Err e
               /\ forall q, In q before -> matched q = true ->
                    exists content, os_ReadStringFromFile os q = Ok content).
Proof.
  unfold readLocalisedRecentChanges.
  destruct (os_Glob os _) as [paths|err].
  - rewrite readRecentChanges_first_error. split.
    + intros (-> & before & p & after & -> & H). split; [reflexivity|].
      right. exists before, p, after. auto.
    + intros (-> & [H|(before & p & after & Hp & H)]); [discriminate|].
      inversion Hp; subst. split; [reflexivity|]. exists before, p, after. auto.
  - split.
    + intros H. inversion H; subst. auto.
    + intros (-> & [H|(before & p & after & Hp & H)]); [|discriminate].
      now inversion H.
Qed.

(** X4. [readLocalisedRecentChanges] never reads a globbed path in which
    [whatsnew-] is nowhere followed by a letter or a digit: the expression
    finds nothing in such a path; when every globbed path is such a path
    the result is the empty map and no error, whatever the files hold. *)
Theorem readLocalisedRecentChanges_skips_unmatched os recentChangesDir paths :
  os_Glob os (Filepath.Join recentChangesDir "whatsnew-*") = Ok paths ->
  (forall p, In p paths -> whatsnew_occurs p = false) ->
  (forall p, In p paths ->
     Regexp.FindStringSubmatch whatsnewPattern 3 p = [])
  /\ readLocalisedRecentChanges os recentChangesDir = (∅, None).
Proof.
  intros Hg Hp.
  assert (forall p, In p paths -> matched p = false) as Hm.
  { intros p Hin. destruct (matched p) eqn:E; [|reflexivity].
    apply matched_occurs in E. rewrite (Hp p Hin) in E. discriminate. }
  split.
  - intros p Hin.
    destruct (FindStringSubmatch_cases p) as [[H _]|[H _]]; [exact H|].
    rewrite (Hm p Hin) in H. discriminate.
  - unfold readLocalisedRecentChanges. rewrite Hg.
    now apply readRecentChanges_unmatched.
Qed.

Lemma readLocalisedRecentChanges_skips_unmatched_witness :
  (forall p, In p ["notes/whatsnew-_draft"; "notes/whatsnew-.txt"] ->
     Regexp.FindStringSubmatch whatsnewPattern 3 p = [])
  /\ readLocalisedRecentChanges
       (exampleOS "notes/whatsnew-*"
          ["notes/whatsnew-_draft"; "notes/whatsnew-.txt"] [])
       "notes"
     = (∅, None).
Proof.
  apply (readLocalisedRecentChanges_skips_unmatched
           (exampleOS "notes/whatsnew-*"
              ["notes/whatsnew-_draft"; "notes/whatsnew-.txt"] [])
           "notes" ["notes/whatsnew-_draft"; "notes/whatsnew-.txt"]).
  - reflexivity.
  - intros p [<-|[<-|[]]]; reflexivity.
Defined.

(** X5. In a path without a line feed, the language that
    [readLocalisedRecentChanges] finds is all that follows a [whatsnew-] of
    the path, up to the end of the path: an extension of the file name is
    part of the language. *)
Theorem language_of_path_rest recentChangesPath :
  has_byte "010" recentChangesPath = false ->
  matched recentChangesPath = true ->
  exists x,
    recentChangesPath = x +:+ "whatsnew-" +:+ language_of recentChangesPath
    /\ locale_tag (language_of recentChangesPath) = true
    /\ Regexp.FindStringSubmatch whatsnewPattern 3 recentChangesPath
       = ["whatsnew-" +:+ language_of recentChangesPath;
          language_of recentChangesPath; language_of recentChangesPath; ""].
Proof.
  intros Hlf. unfold matched, language_of, Regexp.FindStringSubmatch.
  destruct (Regexp.search _ _ recentChangesPath) as [[[s0 s'] c]|] eqn:E;
    [|discriminate].
  intros _. apply search_inv in E as [[x ->] H].
  destruct (match_here_inv _ _ _ H) as (a & u & Ha & _ & Hs0 & _).
  rewrite has_byte_app in Hlf. apply orb_false_elim in Hlf as [_ Hlf].
  rewrite Hs0, has_byte_app in Hlf. apply orb_false_elim in Hlf as [_ Hlf].
  change (String a u +:+ s') with (String a (u +:+ s')) in Hlf, Hs0.
  assert (locale_tag (String a (u +:+ s')) = true) as Ht.
  { cbn [locale_tag has_byte] in *. apply orb_false_elim in Hlf as [_ Hlf].
    now rewrite Ha, Hlf. }
  rewrite Hs0, (match_here_tag _ Ht) in H. inversion H; subst s' c.
  rewrite app_nil_r in *. exists x. cbn -[Regexp.consumed].
  rewrite Hs0, consumed_all. auto.
Qed.

Lemma language_of_path_rest_witness :
  exists x,
    "notes/whatsnew-en-US.txt" = x +:+ "whatsnew-" +:+ language_of "notes/whatsnew-en-US.txt"
    /\ locale_tag (language_of "notes/whatsnew-en-US.txt") = true
    /\ Regexp.FindStringSubmatch whatsnewPattern 3 "notes/whatsnew-en-US.txt"
       = ["whatsnew-" +:+ language_of "notes/whatsnew-en-US.txt";
          language_of "notes/whatsnew-en-US.txt";
          language_of "notes/whatsnew-en-US.txt"; ""].
Proof.
  apply (language_of_path_rest "notes/whatsnew-en-US.txt").
  - reflexivity.
  - reflexivity.
Defined.

(** [locale_starts] reads the first ten bytes of a text. *)
Lemma locale_starts_app y z :
  (10 <= String.length y)%nat -> locale_starts (y +:+ z) = locale_starts y.
Proof.
  intros H.
  do 10 (destruct y as [|? y]; [simpl in H; lia|]).
  reflexivity.
Qed.

(** X6. The expression matches at the first place of a path at which
    [whatsnew-] and a letter or digit stand; when no line feed follows, the
    language is all that follows this [whatsnew-]. *)
Theorem language_of_first_occurrence x a t :
  is_alnum a = true ->
  has_byte "010" t = false ->
  whatsnew_occurs (x +:+ "whatsnew-") = false ->
  matched (x +:+ "whatsnew-" +:+ String a t) = true
  /\ language_of (x +:+ "whatsnew-" +:+ String a t) = String a t.
Proof.
  intros Ha Ht Ho.
  assert (locale_tag (String a t) = true) as Htag.
  { cbn [locale_tag]. now rewrite Ha, Ht. }
  unfold matched, language_of, Regexp.FindStringSubmatch.
  erewrite (search_skip whatsnewPattern ("whatsnew-" +:+ String a t) "w"
              ("hatsnew-" +:+ String a t));
    [| reflexivity | reflexivity | now apply match_here_tag | | ].
  - split; reflexivity.
  - intros p1 p2 Heq Hne. apply match_here_none.
    rewrite Heq, app_assoc in Ho. apply whatsnew_occurs_app_r in Ho.
    apply whatsnew_occurs_starts in Ho.
    rewrite <- app_assoc, locale_starts_app; [exact Ho|].
    rewrite length_app. destruct p2; [congruence|]. simpl. lia.
  - rewrite length_app. lia.
Qed.

Lemma language_of_first_occurrence_witness :
  matched ("whatsnew-/v2/" +:+ "whatsnew-" +:+ String "e" "n-US.txt") = true
  /\ language_of ("whatsnew-/v2/" +:+ "whatsnew-" +:+ String "e" "n-US.txt")
     = String "e" "n-US.txt".
Proof.
  apply (language_of_first_occurrence "whatsnew-/v2/" "e" "n-US.txt");
    reflexivity.
Defined.

(** ** The pattern of the glob *)

Lemma Split_app_sep sep (a b : string) :
  Strings.Split (a +:+ String sep b) sep
  = Strings.Split a sep ++ Strings.Split b sep.
Proof.
  unfold Strings.Split. induction a as [|c a IH].
  - rewrite app_nil_l. cbn [Strings.split_at].
    destruct (Strings.split_at sep b) as [seg segs].
    now rewrite Ascii.eqb_refl.
  - rewrite app_cons. cbn [Strings.split_at].
    destruct (Strings.split_at sep (a +:+ String sep b)) as [seg segs].
    destruct (Strings.split_at sep a) as [seg' segs'].
    destruct (Strings.split_at sep b) as [segb segsb].
    cbn [app] in IH. inversion IH; subst.
    destruct (Ascii.eqb c sep); reflexivity.
Qed.

Lemma Join_snoc (l : list string) (f sep : string) :
  Strings.Join (l ++ [f]) sep
  = match l with
    | [] => f
    | _ :: _ => Strings.Join l sep +:+ sep +:+ f
    end.
Proof.
  induction l as [|e l IH]; [reflexivity|].
  cbn [app]. destruct l as [|e' l]; [reflexivity|].
  change (Strings.Join (e :: (e' :: l) ++ [f]) sep)
    with (e +:+ sep +:+ Strings.Join ((e' :: l) ++ [f]) sep).
  rewrite IH.
  change (Strings.Join (e :: e' :: l) sep)
    with (e +:+ sep +:+ Strings.Join (e' :: l) sep).
  now rewrite !app_assoc.
Qed.

(** [Clean] of a path that ends with [/whatsnew-*] keeps this element. *)
Lemma Clean_whatsnew d :
  d <> "" ->
  exists pre, dir_prefix pre /\ Filepath.Clean (d +:+ "/whatsnew-*") = pre +:+ "whatsnew-*".
Proof.
  destruct d as [|c d]; [congruence|]. intros _.
  rewrite app_cons. unfold Filepath.Clean.
  rewrite <- app_cons.
  change "/whatsnew-*" with (String "/" "whatsnew-*").
  rewrite Split_app_sep, fold_left_app.
  change (Strings.Split "whatsnew-*" "/") with ["whatsnew-*"].
  destruct (fold_left _ (Strings.Split (String c d) "/") _) as [out dd].
  cbn [fold_left]. change (Filepath.clean_step (is_byte 47 c) (out, dd) "whatsnew-*")
    with ("whatsnew-*" :: out, dd).
  cbn [rev]. rewrite Join_snoc.
  destruct (is_byte 47 c).
  - destruct (rev out) as [|e l].
    + exists "/". split; [right; now exists ""|reflexivity].
    + exists ("/" +:+ Strings.Join (e :: l) "/" +:+ "/"). split.
      * right. exists ("/" +:+ Strings.Join (e :: l) "/"). now rewrite app_assoc.
      * now rewrite !app_assoc.
  - destruct (rev out) as [|e l].
    + exists "". split; [now left|reflexivity].
    + exists (Strings.Join (e :: l) "/" +:+ "/"). split; [right; eauto|].
      rewrite app_assoc.
      destruct (Strings.Join (e :: l) "/"); reflexivity.
Qed.

Lemma Join_whatsnew dir :
  exists pre, dir_prefix pre /\ Filepath.Join dir "whatsnew-*" = pre +:+ "whatsnew-*".
Proof.
  unfold Filepath.Join. destruct (String.eqb_spec dir "") as [->|Hd].
  - exists "". split; [now left|reflexivity].
  - cbn [negb]. now apply Clean_whatsnew.
Qed.

(** A separator at the end of the directory makes no difference. *)
Lemma Join_trailing_separator dir f :
  dir <> "" -> Filepath.Join (dir +:+ "/") f = Filepath.Join dir f.
Proof.
  intros Hd. destruct dir as [|c d]; [congruence|].
  unfold Filepath.Join.
  rewrite app_cons. cbn [String.eqb negb].
  rewrite !app_cons. unfold Filepath.Clean.
  rewrite <- !app_cons.
  rewrite (app_assoc (String c d) "/" ("/" +:+ f)).
  change ("/" +:+ "/" +:+ f) with (String "/" (String "/" f)).
  change ("/" +:+ f) with (String "/" f).
  rewrite !Split_app_sep, !fold_left_app.
  destruct (fold_left _ (Strings.Split (String c d) "/") _) as [out dd].
  rewrite (Split_app_sep "/" "" f : Strings.Split (String "/" f) "/" = _).
  reflexivity.
Qed.

(** X7. The pattern that [readLocalisedRecentChanges] hands to the glob is
    [whatsnew-*] after a directory part that is empty or ends with the
    separator, whatever the directory given is: cleaning the joined path
    never removes or changes the file pattern. *)
Theorem readLocalisedRecentChanges_glob_pattern os recentChangesDir :
  exists pre,
    dir_prefix pre
    /\ Filepath.Join recentChangesDir "whatsnew-*" = pre +:+ "whatsnew-*"
    /\ readLocalisedRecentChanges os recentChangesDir
       = match os_Glob os (pre +:+ "whatsnew-*") with
         | Err err => (∅, Some err)
         | Ok recentChangesPaths => readRecentChanges os recentChangesPaths ∅
         end.
Proof.
  destruct (Join_whatsnew recentChangesDir) as (pre & Hpre & Hj).
  exists pre. repeat split; [exact Hpre|exact Hj|].
  unfold readLocalisedRecentChanges. now rewrite Hj.
Qed.

(** X8. A separator at the end of the directory makes no difference to
    [readLocalisedRecentChanges]: the same pattern is globbed, and so the
    same result is returned. *)
Theorem readLocalisedRecentChanges_trailing_separator os recentChangesDir :
  recentChangesDir <> "" ->
  Filepath.Join (recentChangesDir +:+ "/") "whatsnew-*"
  = Filepath.Join recentChangesDir "whatsnew-*"
  /\ readLocalisedRecentChanges os (recentChangesDir +:+ "/")
     = readLocalisedRecentChanges os recentChangesDir.
Proof.
  intros Hd. pose proof (Join_trailing_separator _ "whatsnew-*" Hd) as Hj.
  split; [exact Hj|]. unfold readLocalisedRecentChanges. now rewrite Hj.
Qed.

Lemma readLocalisedRecentChanges_trailing_separator_witness :
  Filepath.Join ("release/notes" +:+ "/") "whatsnew-*"
  = Filepath.Join "release/notes" "whatsnew-*"
  /\ readLocalisedRecentChanges
       (exampleOS "release/notes/whatsnew-*" ["release/notes/whatsnew-fr"]
          [("release/notes/whatsnew-fr", "Nouveau")])
       ("release/notes" +:+ "/")
     = readLocalisedRecentChanges
         (exampleOS "release/notes/whatsnew-*" ["release/notes/whatsnew-fr"]
            [("release/notes/whatsnew-fr", "Nouveau")])
         "release/notes".
Proof.
  apply (readLocalisedRecentChanges_trailing_separator
           (exampleOS "release/notes/whatsnew-*" ["release/notes/whatsnew-fr"]
              [("release/notes/whatsnew-fr", "Nouveau")])
           "release/notes").
  discriminate.
Defined.

(** ** Releases: further properties *)

Lemma In_release_notes (m : gmap string string) l t :
  In (mkLocalizedText l t)
    (map (fun '(language, recentChanges) => mkLocalizedText language recentChanges)
       (map_to_list m))
  <-> m !! l = Some t.
Proof.
  rewrite in_map_iff. split.
  - intros ([l' t'] & Heq & Hin). inversion Heq; subst.
    apply list_elem_of_In in Hin. now apply elem_of_map_to_list in Hin.
  - intros H. exists (l, t). split; [reflexivity|].
    apply list_elem_of_In. now apply elem_of_map_to_list.
Qed.

Lemma release_notes_languages (m : gmap string string) :
  map Language
    (map (fun '(language, recentChanges) => mkLocalizedText language recentChanges)
       (map_to_list m))
  = (map_to_list m).*1.
Proof.
  induction (map_to_list m) as [|[l t] rest IH]; [reflexivity|].
  cbn. now rewrite IH.
Qed.

(** X9. [updateListing] with a directory: when it succeeds, the release
    notes are the notes read from the directory, one entry for each
    language of the map and no language twice; notes that the release held
    before are replaced, its other fields are kept. *)
Theorem updateListing_release_notes os whatsNewsDir release r :
  whatsNewsDir <> "" ->
  updateListing os whatsNewsDir release = Ok r ->
  exists recentChangesMap,
    readLocalisedRecentChanges os whatsNewsDir = (recentChangesMap, None)
    /\ (forall language text,
          In (mkLocalizedText language text) (ReleaseNotes r)
          <-> recentChangesMap !! language = Some text)
    /\ NoDup (map Language (ReleaseNotes r))
    /\ length (ReleaseNotes r) = size recentChangesMap
    /\ VersionCodes r = VersionCodes release /\ Status r = Status release
    /\ InAppUpdatePriority r = InAppUpdatePriority release
    /\ UserFraction r = UserFraction release /\ Name r = Name release.
Proof.
  intros Hd. unfold updateListing.
  destruct (String.eqb_spec whatsNewsDir "") as [->|_]; [congruence|].
  cbn [negb].
  destruct (readLocalisedRecentChanges os whatsNewsDir) as [m [err|]];
    [discriminate|].
  intros H. inversion H; subst; clear H. exists m. cbn.
  split; [reflexivity|]. split; [apply In_release_notes|].
  split; [rewrite release_notes_languages; apply NoDup_fst_map_to_list|].
  split; [now rewrite length_map, length_map_to_list|auto].
Qed.

Lemma updateListing_release_notes_witness :
  exists recentChangesMap,
    readLocalisedRecentChanges
      (exampleOS "notes/whatsnew-*" ["notes/whatsnew-en-US"; "notes/whatsnew-fr"]
         [("notes/whatsnew-en-US", "New"); ("notes/whatsnew-fr", "Nouveau")])
      "notes"
    = (recentChangesMap, None)
    /\ (forall language text,
          In (mkLocalizedText language text)
            [mkLocalizedText "en-US" "New"; mkLocalizedText "fr" "Nouveau"]
          <-> recentChangesMap !! language = Some text)
    /\ NoDup ["en-US"; "fr"]
    /\ 2%nat = size recentChangesMap
    /\ [17%Z] = [17%Z] /\ "draft" = "draft" /\ 3%Z = 3%Z
    /\ 0%float = 0%float /\ "v1.2" = "v1.2".
Proof.
  apply (updateListing_release_notes
           (exampleOS "notes/whatsnew-*" ["notes/whatsnew-en-US"; "notes/whatsnew-fr"]
              [("notes/whatsnew-en-US", "New"); ("notes/whatsnew-fr", "Nouveau")])
           "notes"
           (mkTrackRelease [17%Z] "draft" 3 0%float "v1.2" [mkLocalizedText "de" "Alt"])
           (mkTrackRelease [17%Z] "draft" 3 0%float "v1.2"
              [mkLocalizedText "en-US" "New"; mkLocalizedText "fr" "Nouveau"])).
  - discriminate.
  - vm_compute; reflexivity.
Defined.

(** X10. [createTrackRelease]: a release that is returned holds the version
    codes given, the update priority and the release name of the
    configuration; without a directory of notes it has no release notes,
    with one its release notes are the notes read from the directory. *)
Theorem createTrackRelease_release os config versionCodes r :
  createTrackRelease os config versionCodes = Ok r ->
  VersionCodes r = versionCodes
  /\ InAppUpdatePriority r = cfg_UpdatePriority config
  /\ Name r = cfg_ReleaseName config
  /\ (cfg_WhatsnewsDir config = "" -> ReleaseNotes r = [])
  /\ (cfg_WhatsnewsDir config <> "" ->
      exists recentChangesMap,
        readLocalisedRecentChanges os (cfg_WhatsnewsDir config)
        = (recentChangesMap, None)
        /\ forall language text,
             In (mkLocalizedText language text) (ReleaseNotes r)
             <-> recentChangesMap !! language = Some text).
Proof.
  unfold createTrackRelease, updateListing.
  assert ((if negb (String.eqb (cfg_ReleaseName config) "")
           then cfg_ReleaseName config else "") = cfg_ReleaseName config) as ->.
  { destruct (String.eqb_spec (cfg_ReleaseName config) "") as [->|]; reflexivity. }
  destruct (String.eqb_spec (cfg_WhatsnewsDir config) "") as [Hd|Hd]; cbn [negb].
  - intros H. inversion H; subst; clear H. cbn. repeat split; auto. congruence.
  - destruct (readLocalisedRecentChanges os (cfg_WhatsnewsDir config))
      as [m [err|]]; [discriminate|].
    intros H. inversion H; subst; clear H. cbn. repeat split; try congruence.
    intros _. exists m. split; [reflexivity|]. apply In_release_notes.
Qed.

Lemma createTrackRelease_release_witness :
  [17%Z; 18%Z] = [17%Z; 18%Z] /\ 3%Z = 3%Z /\ "v1.2" = "v1.2"
  /\ ("notes" = "" ->
      [mkLocalizedText "en-US" "New"; mkLocalizedText "fr" "Nouveau"] = [])
  /\ ("notes" <> "" ->
      exists recentChangesMap,
        readLocalisedRecentChanges
          (exampleOS "notes/whatsnew-*" ["notes/whatsnew-en-US"; "notes/whatsnew-fr"]
             [("notes/whatsnew-en-US", "New"); ("notes/whatsnew-fr", "Nouveau")])
          "notes"
        = (recentChangesMap, None)
        /\ forall language text,
             In (mkLocalizedText language text)
               [mkLocalizedText "en-US" "New"; mkLocalizedText "fr" "Nouveau"]
             <-> recentChangesMap !! language = Some text).
Proof.
  apply (createTrackRelease_release
           (exampleOS "notes/whatsnew-*" ["notes/whatsnew-en-US"; "notes/whatsnew-fr"]
              [("notes/whatsnew-en-US", "New"); ("notes/whatsnew-fr", "Nouveau")])
           (mkConfigs "" 0.5%float 3 "v1.2" "notes") [17%Z; 18%Z]
           (mkTrackRelease [17%Z; 18%Z] "inProgress" 3 0.5%float "v1.2"
              [mkLocalizedText "en-US" "New"; mkLocalizedText "fr" "Nouveau"])).
  vm_compute; reflexivity.
Defined.

(** X11. [createTrackRelease] fails exactly when a directory of notes is
    given and reading it fails; its error is then the error of
    [readLocalisedRecentChanges], wrapped by [updateListing] and by
    [createTrackRelease]. *)
Theorem createTrackRelease_error_text os config versionCodes e :
  createTrackRelease os config versionCodes = Err e
  <-> cfg_WhatsnewsDir config <> ""
      /\ exists recentChangesMap err,
           readLocalisedRecentChanges os (cfg_WhatsnewsDir config)
           = (recentChangesMap, Some err)
           /\ e = "failed to update listing, reason: failed to read whatsnews, error: "
                  +:+ err.
Proof.
  unfold createTrackRelease, updateListing.
  destruct (String.eqb_spec (cfg_WhatsnewsDir config) "") as [Hd|Hd]; cbn [negb].
  - split; [discriminate|]. now intros [H _].
  - destruct (readLocalisedRecentChanges os (cfg_WhatsnewsDir config))
      as [m [err|]].
    + split.
      * intros H. inversion H; subst. split; [exact Hd|]. now exists m, err.
      * intros (_ & m' & err' & H & ->). inversion H; subst. reflexivity.
    + split; [discriminate|]. intros (_ & m' & err' & H & _). discriminate.
Qed.

(** X12. [createTrackRelease]: the user fraction of the release is the
    configured one when the status of the release is [inProgress] or
    [halted], and zero for every other status, known or not; a release
    without a configured status and with a fraction other than zero, and a
    release configured as [inProgress], carry the configured fraction. *)
Theorem createTrackRelease_fraction_by_status os config versionCodes r :
  createTrackRelease os config versionCodes = Ok r ->
  UserFraction r
  = (if shouldApplyUserFraction (Status r) then cfg_UserFraction config
     else 0%float)
  /\ (cfg_Status config = "" ->
      PrimFloat.eqb (cfg_UserFraction config) 0%float = false ->
      UserFraction r = cfg_UserFraction config)
  /\ (cfg_Status config = releaseStatusInProgress ->
      UserFraction r = cfg_UserFraction config)
  /\ (cfg_Status config <> "" ->
      cfg_Status config <> releaseStatusInProgress ->
      cfg_Status config <> releaseStatusHalted ->
      UserFraction r = 0%float).
Proof.
  intros H. apply createTrackRelease_Ok in H as (release & Hu & Hs & Hf).
  apply updateListing_fields in Hu as (_ & Hs' & _ & Hf' & _).
  rewrite Hs', Hf', Hf. split; [reflexivity|]. rewrite Hs. repeat split.
  - intros -> Hz. cbn [String.eqb]. unfold releaseStatusFromConfig.
    rewrite Hz. reflexivity.
  - intros ->. reflexivity.
  - intros H0 H1 H2.
    destruct (String.eqb_spec (cfg_Status config) "") as [|_]; [contradiction|].
    unfold shouldApplyUserFraction.
    destruct (String.eqb_spec (cfg_Status config) releaseStatusInProgress);
      [contradiction|].
    destruct (String.eqb_spec (cfg_Status config) releaseStatusHalted);
      [contradiction|reflexivity].
Qed.

Lemma createTrackRelease_fraction_by_status_witness :
  0%float
  = (if shouldApplyUserFraction "beta" then 0.5%float else 0%float)
  /\ ("beta" = "" ->
      PrimFloat.eqb 0.5%float 0%float = false -> 0%float = 0.5%float)
  /\ ("beta" = releaseStatusInProgress -> 0%float = 0.5%float)
  /\ ("beta" <> "" -> "beta" <> releaseStatusInProgress ->
      "beta" <> releaseStatusHalted -> 0%float = 0%float).
Proof.
  apply (createTrackRelease_fraction_by_status openOS
           (mkConfigs "beta" 0.5%float 3 "v1.2" "") [17%Z]
           (mkTrackRelease [17%Z] "beta" 3 0%float "v1.2" [])).
  vm_compute; reflexivity.
Defined.

(** ** Expansion files: further properties *)

Lemma has_byte_split c e :
  has_byte c e = true ->
  exists x r, e = x +:+ String c r /\ has_byte c x = false.
Proof.
  induction e as [|a e IH]; [discriminate|]. cbn [has_byte].
  destruct (Ascii.eqb_spec a c) as [->|Hne].
  - intros _. exists "", e. now rewrite app_nil_l.
  - cbn [orb]. intros H. apply IH in H as (x & r & -> & Hx).
    exists (String a x), r. rewrite app_cons. split; [reflexivity|].
    cbn [has_byte]. rewrite Hx. now destruct (Ascii.eqb_spec a c).
Qed.

Lemma has_byte_TrimSpace_false c s :
  has_byte c s = false -> has_byte c (Strings.TrimSpace s) = false.
Proof.
  intros H. destruct (has_byte c (Strings.TrimSpace s)) eqn:E; [|reflexivity].
  apply TrimSpace_bytes in E. congruence.
Qed.

Lemma expFileInfo_colon x r :
  has_byte ":" x = false ->
  expFileInfo (x +:+ String ":" r)
  = Ok (Strings.TrimSpace (without_colons r), Strings.TrimSpace x).
Proof.
  intros Hx. unfold expFileInfo, without_colons. rewrite (Split_app _ _ _ Hx).
  pose proof (Split_length ":" r) as Hl.
  replace (length (x :: Strings.Split r ":") <? 2)%nat with false
    by (symmetry; apply Nat.ltb_ge; simpl; lia).
  reflexivity.
Qed.

Lemma expFileInfo_no_colon e :
  has_byte ":" e = false ->
  expFileInfo e = Err ("malformed expansion file path: " +:+ e).
Proof. intros E. unfold expFileInfo. now rewrite (Split_no_sep _ _ E). Qed.

(** X13. [expFileInfo] on every entry: an entry without a colon is
    reported as malformed, with the entry in the message; any other entry
    is split at its first colon, the type is the trimmed text before it,
    whatever that text is, and the path is the text after it, without its
    colons and trimmed. *)
Theorem expFileInfo_cases expFileConfigEntry :
  (has_byte ":" expFileConfigEntry = false
   /\ expFileInfo expFileConfigEntry
      = Err ("malformed expansion file path: " +:+ expFileConfigEntry))
  \/ (exists x r,
        expFileConfigEntry = x +:+ String ":" r
        /\ has_byte ":" x = false
        /\ expFileInfo expFileConfigEntry
           = Ok (Strings.TrimSpace (without_colons r), Strings.TrimSpace x)).
Proof.
  destruct (has_byte ":" expFileConfigEntry) eqn:E.
  - right. apply has_byte_split in E as (x & r & -> & Hx).
    exists x, r. repeat split; auto. now apply expFileInfo_colon.
  - left. split; [reflexivity|]. now apply expFileInfo_no_colon.
Qed.

(** X14. What [expFileInfo] returns is trimmed: neither the path nor the
    type starts or ends with white space, and the type holds no colon. *)
Theorem expFileInfo_trimmed expFileConfigEntry expFilePth expFileType :
  expFileInfo expFileConfigEntry = Ok (expFilePth, expFileType) ->
  Strings.TrimSpace expFilePth = expFilePth
  /\ Strings.TrimSpace expFileType = expFileType
  /\ has_byte ":" expFileType = false.
Proof.
  intros H. destruct (has_byte ":" expFileConfigEntry) eqn:E.
  - apply has_byte_split in E as (x & r & -> & Hx).
    rewrite (expFileInfo_colon _ _ Hx) in H.
    inversion H; subst. rewrite !TrimSpace_idem.
    repeat split. now apply has_byte_TrimSpace_false.
  - rewrite (expFileInfo_no_colon _ E) in H. discriminate.
Qed.

Lemma expFileInfo_trimmed_witness :
  Strings.TrimSpace "/sdcard/main.obb" = "/sdcard/main.obb"
  /\ Strings.TrimSpace "main" = "main"
  /\ has_byte ":" "main" = false.
Proof.
  apply (expFileInfo_trimmed " main : /sdcard/main.obb " "/sdcard/main.obb" "main").
  vm_compute; reflexivity.
Defined.

(** [validateExpansionFileConfig] trims the entry itself. *)
Lemma validateExpansionFileConfig_TrimSpace e :
  validateExpansionFileConfig (Strings.TrimSpace e)
  = validateExpansionFileConfig e.
Proof. unfold validateExpansionFileConfig. now rewrite TrimSpace_idem. Qed.

(** What [uploadExpansionFiles] does with an entry that is accepted. *)
Lemma uploadExpansionFiles_valid os service e packageName appEditID versionCode :
  validateExpansionFileConfig e = true ->
  exists expFilePth expFileType,
    (expFileType = "main" \/ expFileType = "patch")
    /\ expFileInfo (Strings.TrimSpace e) = Ok (expFilePth, expFileType)
    /\ uploadExpansionFiles os service e packageName appEditID versionCode
       = (do expansionFile <-
            call (EvOpen expFilePth) (os_Open os expFilePth)
              (fun err => "failed to read expansion file (<nil>), error: " +:+ err);
          call (EvExpansionfilesUpload packageName appEditID versionCode
                  expFileType expansionFile)
            (svc_Expansionfiles service packageName appEditID versionCode
               expFileType expansionFile)
            (fun err => "failed to upload expansion file, error: " +:+ err)).
Proof.
  intros Hv.
  assert (exists p t, (t = "main" \/ t = "patch")
                      /\ expFileInfo (Strings.TrimSpace e) = Ok (p, t))
    as (p & t & Ht & Hi).
  { rewrite <- validateExpansionFileConfig_TrimSpace in Hv.
    destruct (validateExpansionFileConfig_inv _ Hv) as [H|H];
      apply expFileInfo_tagged in H; try reflexivity;
      destruct H as (ws & r & _ & _ & _ & H); eauto. }
  exists p, t. repeat split; auto.
  unfold uploadExpansionFiles.
  rewrite validateExpansionFileConfig_TrimSpace, Hv. cbn [negb]. now rewrite Hi.
Qed.

(** X15. The calls of [uploadExpansionFiles], for every entry.  An entry
    that [validateExpansionFileConfig] rejects is refused before any call.
    For any other entry one file is opened, whose path is trimmed and holds
    no colon; when it cannot be opened nothing is uploaded; when it opens,
    this file is uploaded once, as [main] or [patch], for the package, the
    edit and the version code given, and the result is that of the upload. *)
Theorem uploadExpansionFiles_calls
    os service expFileEntry packageName appEditID versionCode :
  (validateExpansionFileConfig expFileEntry = false
   /\ uploadExpansionFiles os service expFileEntry packageName appEditID versionCode
      = ([], Err ("invalid expansion file config: " +:+ expFileEntry)))
  \/ (validateExpansionFileConfig expFileEntry = true
      /\ exists expFilePth expFileType,
           (expFileType = "main" \/ expFileType = "patch")
           /\ has_byte ":" expFilePth = false
           /\ Strings.TrimSpace expFilePth = expFilePth
           /\ uploadExpansionFiles os service expFileEntry packageName appEditID
                versionCode
              = match os_Open os expFilePth with
                | Err err =>
                    ([EvOpen expFilePth],
                     Err ("failed to read expansion file (<nil>), error: " +:+ err))
                | Ok expansionFile =>
                    ([EvOpen expFilePth;
                      EvExpansionfilesUpload packageName appEditID versionCode
                        expFileType expansionFile],
                     match svc_Expansionfiles service packageName appEditID
                             versionCode expFileType expansionFile with
                     | Ok _ => Ok tt
                     | Err err =>
                         Err ("failed to upload expansion file, error: " +:+ err)
                     end)
                end).
Proof.
  destruct (validateExpansionFileConfig expFileEntry) eqn:Hv.
  - right. split; [reflexivity|].
    destruct (uploadExpansionFiles_valid os service _ packageName appEditID
                versionCode Hv) as (p & t & Ht & Hi & Hu).
    exists p, t. split; [exact Ht|].
    split; [exact (expFileInfo_path_no_colon _ _ _ Hi)|].
    split.
    + destruct (has_byte ":" (Strings.TrimSpace expFileEntry)) eqn:E.
      * apply has_byte_split in E as (x & r & E & Hx).
        rewrite E, (expFileInfo_colon _ _ Hx) in Hi.
        inversion Hi; subst. apply TrimSpace_idem.
      * rewrite (expFileInfo_no_colon _ E) in Hi. discriminate.
    + rewrite Hu. unfold bind, call.
      destruct (os_Open os p) as [f|err]; [|reflexivity].
      destruct (svc_Expansionfiles service packageName appEditID versionCode t f)
        as [[]|err]; reflexivity.
  - left. split; [reflexivity|]. unfold uploadExpansionFiles.
    now rewrite validateExpansionFileConfig_TrimSpace, Hv.
Qed.

(** X16. White space around an entry makes no difference to
    [validateExpansionFileConfig], and none to what [uploadExpansionFiles]
    does with an entry that is accepted: the same calls are made and the
    same result is returned for the entry and for the trimmed entry. *)
Theorem uploadExpansionFiles_white_space
    os service expFileEntry packageName appEditID versionCode :
  validateExpansionFileConfig expFileEntry = true ->
  validateExpansionFileConfig (Strings.TrimSpace expFileEntry) = true
  /\ uploadExpansionFiles os service (Strings.TrimSpace expFileEntry)
       packageName appEditID versionCode
     = uploadExpansionFiles os service expFileEntry packageName appEditID
         versionCode.
Proof.
  intros Hv. rewrite validateExpansionFileConfig_TrimSpace. split; [exact Hv|].
  unfold uploadExpansionFiles.
  rewrite TrimSpace_idem, validateExpansionFileConfig_TrimSpace, Hv.
  reflexivity.
Qed.

Lemma uploadExpansionFiles_white_space_witness :
  validateExpansionFileConfig (Strings.TrimSpace "  patch:/sdcard/p.obb ") = true
  /\ uploadExpansionFiles openOS acceptingService
       (Strings.TrimSpace "  patch:/sdcard/p.obb ") "com.example.app" "edit-1" 42
     = uploadExpansionFiles openOS acceptingService "  patch:/sdcard/p.obb "
         "com.example.app" "edit-1" 42.
Proof.
  apply (uploadExpansionFiles_white_space openOS acceptingService
           "  patch:/sdcard/p.obb " "com.example.app" "edit-1" 42).
  vm_compute; reflexivity.
Defined.

Lemma TrimSpace_tagged ws t r :
  space_run_l ws -> Forall (fun c => plain c = true) (list_ascii_of_string t) ->
  t <> "" ->
  Strings.TrimSpace (ws +:+ t +:+ r) = t +:+ Strings.TrimRight r.
Proof.
  intros Hws Ht Hne. unfold Strings.TrimSpace. rewrite TrimLeft_run_app by exact Hws.
  destruct t as [|a t]; [congruence|]. clear Hne.
  cbn [list_ascii_of_string] in Ht. inversion Ht as [|? ? Ha Ht']; subst.
  rewrite app_cons, (TrimLeft_cons_plain _ _ Ha).
  rewrite <- app_cons. clear Ht.
  revert Ha Ht'. generalize a. clear a.
  induction t as [|b t IH]; intros a Ha Ht.
  - rewrite app_cons, app_nil_l. rewrite (TrimRight_cons_plain _ _ Ha).
    now rewrite app_cons, app_nil_l.
  - cbn [list_ascii_of_string] in Ht. inversion Ht as [|? ? Hb Ht']; subst.
    rewrite app_cons, (TrimRight_cons_plain _ _ Ha), (IH b Hb Ht').
    now rewrite app_cons.
Qed.

(** X17. What [validateExpansionFileConfig] accepts: exactly the entries
    that are white space, then [main:] or [patch:], then anything.  The
    type is matched by case, and no white space may stand between the type
    and the colon. *)
Theorem validateExpansionFileConfig_accepts expFileEntry :
  validateExpansionFileConfig expFileEntry = true
  <-> exists ws r,
        space_run_l ws
        /\ (expFileEntry = ws +:+ "main:" +:+ r
            \/ expFileEntry = ws +:+ "patch:" +:+ r).
Proof.
  split.
  - intros H. destruct (validateExpansionFileConfig_inv _ H) as [Hp|Hp];
      apply expFileInfo_tagged in Hp; try reflexivity;
      destruct Hp as (ws & r & Hws & -> & _); exists ws, r;
      (split; [exact Hws|]); rewrite app_assoc; [left|right]; reflexivity.
  - intros (ws & r & Hws & [-> | ->]); unfold validateExpansionFileConfig,
      Strings.HasPrefix.
    + rewrite (TrimSpace_tagged ws "main:" r Hws);
        [|repeat constructor|discriminate].
      now rewrite prefix_app_refl.
    + rewrite (TrimSpace_tagged ws "patch:" r Hws);
        [|repeat constructor|discriminate].
      rewrite (prefix_app_refl "patch:"). apply orb_true_r.
Qed.

(** ** Mapping files, bundles and APKs: further properties *)






Lemma app_inj_l (p x y : string) : p +:+ x = p +:+ y -> x = y.
Proof.
  induction p as [|a p IH]; [now rewrite !app_nil_l|].
  rewrite !app_cons. intros H. inversion H. auto.
Qed.

(** X20. [uploadAppApk] makes one upload call, with the file given; it
    returns the APK of the service, or the remote error after
    [failed to upload apk, error: ], as it stands: percent signs in the
    remote text are kept, and different remote errors give different
    errors. *)
Theorem uploadAppApk_result service packageName appEditID appFile :
  fst (uploadAppApk service packageName appEditID appFile)
  = [EvApksUpload packageName appEditID appFile]
  /\ (forall apk,
        outcome (uploadAppApk service packageName appEditID appFile) = Ok apk
        <-> svc_Apks service packageName appEditID appFile = Ok apk)
  /\ (forall err,
        outcome (uploadAppApk service packageName appEditID appFile)
        = Err ("failed to upload apk, error: " +:+ err)
        <-> svc_Apks service packageName appEditID appFile = Err err)
  /\ (is_Err (outcome (uploadAppApk service packageName appEditID appFile))
      = is_Err (svc_Apks service packageName appEditID appFile)).
Proof.
  unfold uploadAppApk, call, outcome.
  destruct (svc_Apks service packageName appEditID appFile) as [apk|e]; cbn.
  - repeat split; try congruence; discriminate.
  - repeat split; try congruence; try discriminate.
    intros H. inversion H as [H']. apply app_inj_l in H'. now subst.
Qed.
